(** * dehashed_excerpt: excerpt builder and breach counter

    A shallow embedding of [src/dehashed_excerpt.py] and the properties of
    its column resolution, delimiter fallback, ranking, de-duplication and
    breach counting.

    Conventions of the embedding.
    - A Python [str] is a [string]; one [ascii] stands for one code point
      in the range U+0000..U+00FF.  [str.strip] and [str.lower] are
      written out for that range.
    - A Python [set] of strings is a [gset string]; the [ALIASES] dict is
      a [gmap string (gset string)].
    - [None]-able values are [option]s; Python truthiness of an optional
      string is [truthy].
    - The [csv] module is a library: what [csv.Sniffer().sniff] and
      [csv.reader] do is taken as given (a [Variable] and a field of the
      opened file).
    - Logging to stderr is not modelled. *)

From Stdlib Require Import ZArith Ascii String.
From stdpp Require Import gmap strings list sorting pretty.

(* [set_solver] clears hypotheses by name. *)
Local Set Warnings "-clear-no-such-hyp".

Local Open Scope string_scope.
Local Open Scope nat_scope.
Local Open Scope stdpp_scope.
Local Open Scope list_scope.

(** ** Python string primitives *)

Module Py.

(** [c.isspace()] for a code point below 256: TAB..CR, FS..US, SPACE,
    NEL and NBSP. *)
Definition isspace (c : ascii) : bool :=
  let n := nat_of_ascii c in
  ((9 <=? n) && (n <=? 13)) || ((28 <=? n) && (n <=? 32))
  || (n =? 133) || (n =? 160).

Fixpoint lstrip (s : string) : string :=
  match s with
  | String c s' => if isspace c then lstrip s' else s
  | EmptyString => EmptyString
  end.

(** The text of [s] without its trailing whitespace. *)
Fixpoint rstrip (s : string) : string :=
  match s with
  | String c s' =>
      match rstrip s' with
      | EmptyString => if isspace c then EmptyString else String c EmptyString
      | r => String c r
      end
  | EmptyString => EmptyString
  end.

(** [s.strip()] *)
Definition strip (s : string) : string := rstrip (lstrip s).

(** [c.lower()] for a code point below 256: A..Z and the Latin-1 capitals
    U+00C0..U+00DE other than the multiplication sign U+00D7. *)
Definition lower_char (c : ascii) : ascii :=
  let n := nat_of_ascii c in
  if ((65 <=? n) && (n <=? 90))
     || ((192 <=? n) && (n <=? 222) && negb (n =? 215))
  then ascii_of_nat (n + 32) else c.

(** [s.lower()] *)
Fixpoint lower (s : string) : string :=
  match s with
  | String c s' => String (lower_char c) (lower s')
  | EmptyString => EmptyString
  end.

(** [sub in s] *)
Fixpoint contains (sub s : string) : bool :=
  String.prefix sub s
  || match s with
     | String _ s' => contains sub s'
     | EmptyString => false
     end.

(** [s.count(c)] for a one-character [c]. *)
Fixpoint count (c : ascii) (s : string) : nat :=
  match s with
  | String d s' => (if Ascii.eqb d c then 1 else 0) + count c s'
  | EmptyString => 0
  end.

(** Truthiness of a string: non-empty. *)
Definition nonempty (s : string) : bool :=
  match s with EmptyString => false | String _ _ => true end.

(** Truthiness of an optional string: neither [None] nor [""]. *)
Definition truthy (o : option string) : bool :=
  match o with Some s => nonempty s | None => false end.

End Py.

(** ** Header aliases *)

Definition ALIASES : gmap string (gset string) :=
  list_to_map
    [ ("email", list_to_set ["email"; "email_address"; "e-mail"; "mail"; "addr"; "address_email"]);
      ("name", list_to_set ["name"; "full_name"; "fullname"; "display_name"]);
      ("first", list_to_set ["first_name"; "firstname"; "given_name"; "givenname"; "first"]);
      ("last", list_to_set ["last_name"; "lastname"; "surname"; "family_name"; "familyname"; "last"]);
      ("breach", list_to_set ["breach"; "source"; "database"; "breach_name"]) ].

(** [normalize]: the stripped string; every caller passes a [str], so the
    [s or ...] default is never taken. *)
Definition normalize (s : string) : string := Py.strip s.

(** The index of the first element satisfying [p]: the
    [for i, h in enumerate(header_lower): if p(h): return i] loops. *)
Definition first_index (p : string → bool) (l : list string) : option nat :=
  fst <$> list_find (λ h, p h = true) l.

(** [choose_col] *)
Definition choose_col (header_lower : list string) (prefer : string)
    (explicit : option string) : option nat :=
  match header_lower with
  | [] => None
  | _ =>
    let by_explicit :=
      match explicit with
      | Some e =>
          if Py.nonempty e then
            let preferred := Py.lower e in
            match first_index (λ h, String.eqb h preferred) header_lower with
            | Some i => Some i
            | None => first_index (λ h, Py.contains preferred h) header_lower
            end
          else None
      | None => None
      end in
    match by_explicit with
    | Some i => Some i
    | None =>
        let aliases := default ∅ (ALIASES !! prefer) in
        first_index (λ h, bool_decide (h ∈ aliases)) header_lower
    end
  end.

(** ** Delimiter detection *)

Inductive quoting_style := QUOTE_MINIMAL | QUOTE_ALL | QUOTE_NONNUMERIC | QUOTE_NONE.

(** The attributes of a [csv.Dialect]. *)
Record Dialect := {
  delimiter : string;
  doublequote : bool;
  escapechar : option string;
  lineterminator : string;
  quotechar : string;
  quoting : quoting_style;
  skipinitialspace : bool
}.

Definition TAB : ascii := ascii_of_nat 9.
Definition LF : ascii := ascii_of_nat 10.
Definition DQUOTE : ascii := ascii_of_nat 34.

(** The delimiters handed to the sniffer, which are also the keys of the
    [counts] dict, in insertion order. *)
Definition candidates : list ascii := [","%char; ";"%char; TAB; "|"%char; ":"%char].

(** The scan of [max(counts, key=counts.get)] over the keys in insertion
    order: the running best is replaced only by a strictly larger count, so
    the first key with the largest count wins. *)
Fixpoint max_scan (best : ascii * nat) (rest : list (ascii * nat)) : ascii :=
  match rest with
  | [] => best.1
  | kv :: rest' => if best.2 <? kv.2 then max_scan kv rest' else max_scan best rest'
  end.

(** [max(counts, key=counts.get)]; the dict of [detect_dialect] is never
    empty (on an empty one Python raises). *)
Definition max_key (counts : list (ascii * nat)) : ascii :=
  match counts with
  | kv :: rest => max_scan kv rest
  | [] => ","%char
  end.

(** The dialect class [F] built in the [except] branch. *)
Definition F (delim : ascii) : Dialect :=
  {| delimiter := String delim EmptyString;
     doublequote := true;
     escapechar := None;
     lineterminator := String LF EmptyString;
     quotechar := String DQUOTE EmptyString;
     quoting := QUOTE_MINIMAL;
     skipinitialspace := true |}.

Section Sniffer.

(** [csv.Sniffer().sniff(sample, delimiters)]: the sniffed dialect, or
    [None] when the call raises. *)
Variable sniff : string → list ascii → option Dialect.

(** [detect_dialect] *)
Definition detect_dialect (sample : string) : Dialect :=
  match sniff sample candidates with
  | Some dialect => dialect
  | None =>
      let counts :=
        [ (","%char, Py.count "," sample); (";"%char, Py.count ";" sample);
          (TAB, Py.count TAB sample); ("|"%char, Py.count "|" sample);
          (":"%char, Py.count ":" sample) ] in
      let delim :=
        if Py.nonempty sample then max_key counts else ","%char in
      F delim
  end.

End Sniffer.

(** ** Names and domains *)

(** [row[idx]] guarded by [idx is not None and idx < len(row)], else [""]. *)
Definition field_or_empty (row : list string) (idx : option nat) : string :=
  match idx with
  | Some i => match row !! i with Some v => normalize v | None => EmptyString end
  | None => EmptyString
  end.

(** [build_name] *)
Definition build_name (row : list string) (idx_name idx_first idx_last : option nat)
    : string :=
  let name := field_or_empty row idx_name in
  if Py.nonempty name then name
  else
    let fn := field_or_empty row idx_first in
    let ln := field_or_empty row idx_last in
    Py.strip (fn +:+ (if Py.nonempty fn && Py.nonempty ln then " " else EmptyString) +:+ ln).

(** No ['>'] occurs in [s]. *)
Fixpoint no_gt (s : string) : bool :=
  match s with
  | String c s' => negb (Ascii.eqb c ">") && no_gt s'
  | EmptyString => true
  end.

(** [re.search(r"@([^>]+)$", email)]: group 1 of the leftmost match, that
    is the text after the first ['@'] which is followed, up to the end of
    the string, by at least one character and by no ['>']. *)
Fixpoint search_domain (email : string) : option string :=
  match email with
  | String c rest =>
      if Ascii.eqb c "@" && Py.nonempty rest && no_gt rest then Some rest
      else search_domain rest
  | EmptyString => None
  end.

(** [email_domain] *)
Definition email_domain (email : string) : string :=
  match search_domain email with
  | Some g => Py.lower g
  | None => EmptyString
  end.

(** ** The run over the file *)

(** The command line, as far as the modelled code reads it. *)
Record Args := {
  limit : Z;
  email_col : option string;
  name_col : option string;
  first_col : option string;
  last_col : option string;
  breach_col : option string;
  delimiter_arg : string;
  prefer_domain : option string;
  json_file : option string
}.

(** What iterating a [csv.reader] yields: rows, then the end of the input
    or a [csv.Error]. *)
Inductive csv_stream :=
| Eof
| Row (fields : list string) (rest : csv_stream)
| CsvError (msg : string).

(** The opened file: its text, and what [csv.reader] makes of it under a
    dialect ([None] when [csv.reader] rejects the dialect). *)
Record CsvFile := {
  text : string;
  reader : Dialect → option csv_stream
}.

(** The five resolved column indices. *)
Record Columns := {
  idx_email : option nat;
  idx_name : option nat;
  idx_first : option nat;
  idx_last : option nat;
  idx_breach : option nat
}.

(** [header_lower] and the five [choose_col] calls. *)
Definition header_lower (header : list string) : list string :=
  (λ h, Py.lower (normalize h)) <$> header.

Definition resolve (args : Args) (header : list string) : Columns :=
  let hl := header_lower header in
  {| idx_email := choose_col hl "email" (email_col args);
     idx_name := choose_col hl "name" (name_col args);
     idx_first := choose_col hl "first" (first_col args);
     idx_last := choose_col hl "last" (last_col args);
     idx_breach := choose_col hl "breach" (breach_col args) |}.

(** An entry of [items]: [((prefer_hit, has_name, len(items)), display)]. *)
Definition rank_key : Type := nat * nat * nat.
Definition item : Type := rank_key * string.

Definition miss_of (it : item) : nat := it.1.1.1.
Definition noname_of (it : item) : nat := it.1.1.2.
Definition seq_of (it : item) : nat := it.1.2.
Definition display_of (it : item) : string := it.2.

(** Python's order on the rank tuples: lexicographic. *)
Definition key_ltb (a b : rank_key) : bool :=
  let '(a1, a2, a3) := a in
  let '(b1, b2, b3) := b in
  (a1 <? b1) || ((a1 =? b1) && ((a2 <? b2) || ((a2 =? b2) && (a3 <? b3)))).

(** Stable insertion: [x] goes behind every element whose key is not
    larger than its own. *)
Fixpoint insert_item (x : item) (l : list item) : list item :=
  match l with
  | [] => [x]
  | y :: l' => if key_ltb x.1 y.1 then x :: l else y :: insert_item x l'
  end.

(** [items.sort(key=lambda x: x[0])]: a stable sort by rank key. *)
Definition sort_items (items : list item) : list item :=
  foldl (λ acc x, insert_item x acc) [] items.

(** The breach part of the loop body. *)
Definition scan_breach (cols : Columns) (row : list string) (breaches : gset string)
    : gset string :=
  match idx_breach cols with
  | Some i =>
      match row !! i with
      | Some v =>
          let b := normalize v in
          if Py.nonempty b then {[b]} ∪ breaches else breaches
      | None => breaches
      end
  | None => breaches
  end.

(** [0 if (args.prefer_domain and dom == args.prefer_domain.lower()) else 1] *)
Definition prefer_hit (args : Args) (dom : string) : nat :=
  match prefer_domain args with
  | Some d => if Py.nonempty d && String.eqb dom (Py.lower d) then 0 else 1
  | None => 1
  end.

(** The entry a row contributes to [items], [seq] being [len(items)]:
    none when the row has no value at the email column ([continue]). *)
Definition entry (args : Args) (cols : Columns) (row : list string) (seq : nat)
    : option item :=
  match idx_email cols with
  | None => None
  | Some i =>
      match row !! i with
      | None => None
      | Some v =>
          let email := normalize v in
          if negb (Py.nonempty email) then None
          else
            let name := build_name row (idx_name cols) (idx_first cols) (idx_last cols) in
            let display :=
              if Py.nonempty name then name +:+ " <" +:+ email +:+ ">" else email in
            let dom := email_domain email in
            let has_name := if Py.nonempty name then 0 else 1 in
            Some ((prefer_hit args dom, has_name, seq), display)
      end
  end.

(** The email part of the loop body: [items.append(...)] unless skipped. *)
Definition scan_email (args : Args) (cols : Columns) (row : list string)
    (items : list item) : list item :=
  match entry args cols row (length items) with
  | Some it => items ++ [it]
  | None => items
  end.

(** The body of the row loop. *)
Definition scan_row (args : Args) (cols : Columns) (row : list string)
    (acc : list item * gset string) : list item * gset string :=
  (scan_email args cols row acc.1, scan_breach cols row acc.2).

(** [for row in reader: ...]: the accumulators at the end of the input, or
    [None] when the reader raises. *)
Fixpoint scan (args : Args) (cols : Columns) (s : csv_stream)
    (acc : list item * gset string) : option (list item * gset string) :=
  match s with
  | Eof => Some acc
  | Row row rest => scan args cols rest (scan_row args cols row acc)
  | CsvError _ => None
  end.

(** The de-duplication loop over the sorted items. *)
Fixpoint dedup (lim : Z) (items : list item) (seen : gset string)
    (excerpt_list : list string) : list string :=
  match items with
  | [] => excerpt_list
  | (_, disp) :: rest =>
      if bool_decide (disp ∈ seen) then dedup lim rest seen excerpt_list
      else
        let seen := {[disp]} ∪ seen in
        let excerpt_list := excerpt_list ++ [disp] in
        if (lim <=? Z.of_nat (length excerpt_list))%Z then excerpt_list
        else dedup lim rest seen excerpt_list
  end.

(** The JSON summary. *)
Record Summary := {
  excerpt : list string;
  breached_databases : nat
}.

(** What a completed run leaves behind: the excerpt and the breach count it
    computed, the lines printed to stdout, and the summary written to the
    JSON file, if one was written. *)
Record Report := {
  summary : Summary;
  stdout : list string;
  json_written : option Summary
}.

Inductive Outcome :=
| SysExit (code : Z)                  (* [sys.exit(code)], nothing on stdout *)
| Uncaught (printed : list string)    (* an exception left [main] after these lines *)
| Returned (r : Report).              (* [main] returned *)

(** The size of the prefix handed to the sniffer. *)
Definition SAMPLE_SIZE : nat := N.to_nat 65536.

(** [fh.read(65536)] on the freshly opened file. *)
Definition sample (fh : CsvFile) : string := String.substring 0 SAMPLE_SIZE (text fh).

Definition EMPTY_REPORT : list string :=
  ["Excerpt (name <email>)"; "(empty file)"; EmptyString; "Breached Databases: 0"].

(** The text report of a file with a header. *)
Definition render (excerpt_list : list string) (idx_email : option nat) (count : nat)
    : list string :=
  ["Excerpt (name <email>)"]
  ++ match excerpt_list with
     | _ :: _ => excerpt_list
     | [] =>
         match idx_email with
         | None => ["(no email column found)"]
         | Some _ => ["(no rows with emails found)"]
         end
     end
  ++ [EmptyString; "Breached Databases: " +:+ pretty count].

Section Main.

Variable sniff : string → list ascii → option Dialect.

(** The dialect class [Manual]. *)
Definition Manual (args : Args) : Dialect :=
  {| delimiter :=
       if String.eqb (delimiter_arg args) "\t"
       then String TAB EmptyString else delimiter_arg args;
     doublequote := true;
     escapechar := None;
     lineterminator := String LF EmptyString;
     quotechar := String DQUOTE EmptyString;
     quoting := QUOTE_MINIMAL;
     skipinitialspace := true |}.

(** The dialect [main] reads the file with. *)
Definition select_dialect (args : Args) (fh : CsvFile) : Dialect :=
  if String.eqb (delimiter_arg args) "auto" then detect_dialect sniff (sample fh)
  else Manual args.

(** [main].  [file] is the file [args.csv] names ([None] when no such
    path exists); [json_ok] tells whether [args.json_file] can be opened
    for writing. *)
Definition main (args : Args) (file : option CsvFile) (json_ok : bool) : Outcome :=
  match file with
  | None => SysExit 2
  | Some fh =>
      let dialect := select_dialect args fh in
      match reader fh dialect with
      | None => Uncaught []
      | Some Eof =>
          let empty := {| excerpt := []; breached_databases := 0 |} in
          if Py.truthy (json_file args) then
            if json_ok
            then Returned {| summary := empty; stdout := EMPTY_REPORT;
                             json_written := Some empty |}
            else Uncaught EMPTY_REPORT
          else Returned {| summary := empty; stdout := EMPTY_REPORT;
                           json_written := None |}
      | Some (CsvError _) => SysExit 3
      | Some (Row header rows) =>
          let cols := resolve args header in
          match scan args cols rows ([], ∅) with
          | None => Uncaught []
          | Some (items, breaches) =>
              let items := sort_items items in
              let excerpt_list := dedup (limit args) items ∅ [] in
              let result :=
                {| excerpt := excerpt_list; breached_databases := size breaches |} in
              Returned
                {| summary := result;
                   stdout := render excerpt_list (idx_email cols) (size breaches);
                   json_written :=
                     if Py.truthy (json_file args) && json_ok
                     then Some result else None |}
          end
      end
  end.

End Main.

(** ** Inputs that are read to the end *)

(** The stream of a reader that yields [rows] and then stops. *)
Definition of_rows (rows : list (list string)) : csv_stream := foldr Row Eof rows.

(** The row loop over a list of rows. *)
Definition scan_rows (args : Args) (cols : Columns) (rows : list (list string))
    (acc : list item * gset string) : list item * gset string :=
  foldl (λ acc row, scan_row args cols row acc) acc rows.

(** The sorted working list of a file with the given header and rows. *)
Definition ranked (args : Args) (header : list string) (rows : list (list string))
    : list item :=
  sort_items (scan_rows args (resolve args header) rows ([], ∅)).1.

(** The entries the de-duplication loop keeps, [n] being the number of
    lines emitted so far: [dedup] with the items in place of their display
    strings. *)
Fixpoint kept (lim : Z) (items : list item) (seen : gset string) (n : nat)
    : list item :=
  match items with
  | [] => []
  | it :: rest =>
      if bool_decide (it.2 ∈ seen) then kept lim rest seen n
      else
        it :: (if (lim <=? Z.of_nat (S n))%Z then []
               else kept lim rest ({[it.2]} ∪ seen) (S n))
  end.

(** The excerpt and the breach count of a file whose reader yields the rows
    [rws], the header first. *)
Definition summary_of (args : Args) (rws : list (list string)) : Summary :=
  match rws with
  | [] => {| excerpt := []; breached_databases := 0 |}
  | header :: rows =>
      {| excerpt := display_of <$> kept (limit args) (ranked args header rows) ∅ 0;
         breached_databases :=
           size (scan_rows args (resolve args header) rows ([], ∅)).2 |}
  end.

(** The order of the sort: the key of [x] is not larger than that of [y]. *)
Definition key_le (x y : item) : Prop := key_ltb y.1 x.1 = false.

(** The third component of a key is the position of the entry in [items]. *)
Definition numbered (items : list item) : Prop :=
  ∀ i m, items !! i = Some m → seq_of m = i.

(** ** The specification's wording *)

(** The first [Some] among the attempts. *)
Definition first_some (attempts : list (option nat)) : option nat :=
  foldr (λ o rest, match o with Some i => Some i | None => rest end) None attempts.

(** Column resolution as the specification words it: (a) the explicit name,
    exact match; (b) the explicit name, substring match; (c) the alias set
    of the role; (d) none. *)
Definition choose_col_spec (header_lower : list string) (role : string)
    (explicit : option string) : option nat :=
  first_some
    [ e ← explicit; first_index (λ h, String.eqb h (Py.lower e)) header_lower;
      e ← explicit; first_index (λ h, Py.contains (Py.lower e) h) header_lower;
      first_index (λ h, bool_decide (h ∈ default ∅ (ALIASES !! role))) header_lower ].

(** The text after the last ['@'] of [s], if [s] has one. *)
Fixpoint after_last_at (s : string) : option string :=
  match s with
  | String c rest =>
      match after_last_at rest with
      | Some d => Some d
      | None => if Ascii.eqb c "@" then Some rest else None
      end
  | EmptyString => None
  end.

(** The preferred-domain-miss flag as the specification words it: 0 when a
    preferred domain is set and equals, case-insensitively, the text after
    the last ['@'] of the email. *)
Definition prefer_miss_spec (preferred : option string) (email : string) : nat :=
  match preferred with
  | Some d =>
      if Py.nonempty d
         && String.eqb (Py.lower (default EmptyString (after_last_at email))) (Py.lower d)
      then 0 else 1
  | None => 1
  end.

(** The non-empty trimmed values found at the breach column index, one per
    row that reaches that index. *)
Definition breach_values (idx : option nat) (rows : list (list string)) : list string :=
  match idx with
  | Some i =>
      filter (λ b, b ≠ EmptyString) (normalize <$> omap (λ row : list string, row !! i) rows)
  | None => []
  end.

(** The breach column of a file, given all the rows the reader yields (the
    header first); a file without a header has none. *)
Definition breach_index (args : Args) (rws : list (list string)) : option nat :=
  idx_breach (resolve args (default [] (head rws))).

(** ** Example files *)

(** [s.split(c)] *)
Fixpoint split (c : ascii) (s : string) : list string :=
  match s with
  | String a s' =>
      if Ascii.eqb a c then EmptyString :: split c s'
      else match split c s' with
           | x :: r => String a x :: r
           | [] => [String a EmptyString]
           end
  | EmptyString => [EmptyString]
  end.

(** The lines of a text, without their line feeds. *)
Definition lines (t : string) : list string :=
  let ps := split LF t in
  if decide (last ps = Some EmptyString) then removelast ps else ps.

(** The rows [csv.reader] yields for a text free of quote characters and
    carriage returns in which no field starts with a blank: the fields of
    each line, an empty line being a row without fields. *)
Definition plain_rows (delim : ascii) (t : string) : list (list string) :=
  (λ l, if Py.nonempty l then split delim l else []) <$> lines t.

(** A file with such a text. *)
Definition plain_file (t : string) : CsvFile :=
  {| text := t;
     reader := λ d,
       match delimiter d with
       | String c EmptyString => Some (of_rows (plain_rows c t))
       | _ => None
       end |}.

(** A sniffer that always gives up. *)
Definition no_sniff : string → list ascii → option Dialect := λ _ _, None.

Definition NL : string := String LF EmptyString.

(** A command line with the given limit, preferred domain and JSON file,
    and the defaults for the rest. *)
Definition mk_args (lim : Z) (preferred json : option string) : Args :=
  {| limit := lim; email_col := None; name_col := None; first_col := None;
     last_col := None; breach_col := None; delimiter_arg := "auto";
     prefer_domain := preferred; json_file := json |}.

Definition default_args : Args := mk_args 10 None None.
Definition limit_zero_args : Args := mk_args 0 None None.
Definition two_at_args : Args := mk_args 10 (Some "C.com") None.
Definition first_at_args : Args := mk_args 10 (Some "b@C.com") None.
Definition prefer_args : Args := mk_args 10 (Some "Corp.org") None.
Definition sidecar_args : Args := mk_args 10 None (Some "missing/summary.json").

Definition example_text : string :=
  "email,first_name,last_name,breach" +:+ NL +:+
  "a@x.com,Ann,Lee,LinkedIn" +:+ NL +:+
  "b@x.com,,,Dropbox" +:+ NL +:+
  "a@x.com,Ann,Lee,Adobe" +:+ NL.

Definition example_header : list string := ["email"; "first_name"; "last_name"; "breach"].

Definition example_rows : list (list string) :=
  [["a@x.com"; "Ann"; "Lee"; "LinkedIn"];
   ["b@x.com"; EmptyString; EmptyString; "Dropbox"];
   ["a@x.com"; "Ann"; "Lee"; "Adobe"]].

Definition example_report : Report :=
  {| summary := {| excerpt := ["Ann Lee <a@x.com>"; "b@x.com"]; breached_databases := 3 |};
     stdout := ["Excerpt (name <email>)"; "Ann Lee <a@x.com>"; "b@x.com"; EmptyString;
                "Breached Databases: 3"];
     json_written := None |}.

Definition one_row_text : string := "email" +:+ NL +:+ "a@x.com" +:+ NL.

Definition breach_text : string :=
  "source,when" +:+ NL +:+ "Adobe,1" +:+ NL +:+ "Adobe ,2" +:+ NL +:+
  ",3" +:+ NL +:+ "Dropbox,4" +:+ NL.

Definition breach_rows : list (list string) :=
  [["source"; "when"]; ["Adobe"; "1"]; ["Adobe "; "2"]; [EmptyString; "3"];
   ["Dropbox"; "4"]].

Definition breach_report : Report :=
  {| summary := {| excerpt := []; breached_databases := 2 |};
     stdout := ["Excerpt (name <email>)"; "(no email column found)"; EmptyString;
                "Breached Databases: 2"];
     json_written := None |}.

Definition prefer_text : string :=
  "email,name" +:+ NL +:+ "a@x.com,Ann" +:+ NL +:+ "b@x.com," +:+ NL +:+
  "c@corp.org," +:+ NL +:+ "d@CORP.org,Dee" +:+ NL.

Definition prefer_header : list string := ["email"; "name"].

Definition prefer_rows : list (list string) :=
  [["a@x.com"; "Ann"]; ["b@x.com"; EmptyString]; ["c@corp.org"; EmptyString];
   ["d@CORP.org"; "Dee"]].

Definition case_text : string :=
  "email,breach" +:+ NL +:+ "x@y.com,LinkedIn" +:+ NL +:+ "z@y.com,linkedin" +:+ NL.

(** ** Further notions used in the statements *)

(** Every character of [s] is whitespace: [not s.strip()]. *)
Fixpoint blank (s : string) : bool :=
  match s with
  | String c s' => Py.isspace c && blank s'
  | EmptyString => true
  end.

(** The stream of a reader that yields [rows] and then raises. *)
Definition rows_then_error (rows : list (list string)) (msg : string) : csv_stream :=
  foldr Row (CsvError msg) rows.

(** The display string of an entry with the given name and email. *)
Definition display (name email : string) : string :=
  if Py.nonempty name then name +:+ " <" +:+ email +:+ ">" else email.

(** The command line with another limit, and with another breach column. *)
Definition with_limit (lim : Z) (args : Args) : Args :=
  {| limit := lim; email_col := email_col args; name_col := name_col args;
     first_col := first_col args; last_col := last_col args;
     breach_col := breach_col args; delimiter_arg := delimiter_arg args;
     prefer_domain := prefer_domain args; json_file := json_file args |}.

Definition with_breach_col (col : option string) (args : Args) : Args :=
  {| limit := limit args; email_col := email_col args; name_col := name_col args;
     first_col := first_col args; last_col := last_col args;
     breach_col := col; delimiter_arg := delimiter_arg args;
     prefer_domain := prefer_domain args; json_file := json_file args |}.

(** The entries scanned from the data rows, in the order of [items]. *)
Definition scanned (args : Args) (header : list string) (rows : list (list string))
    : list item :=
  (scan_rows args (resolve args header) rows ([], ∅)).1.

(** The lines that stand in for an empty excerpt. *)
Definition PLACEHOLDERS : list string :=
  ["(empty file)"; "(no email column found)"; "(no rows with emails found)"].

Definition no_email_text : string :=
  "user,source" +:+ NL +:+ "ann,Adobe" +:+ NL +:+ "bob,Canva" +:+ NL.

Definition no_email_rows : list (list string) := [["ann"; "Adobe"]; ["bob"; "Canva"]].

Definition no_email_report : Report :=
  {| summary := {| excerpt := []; breached_databases := 2 |};
     stdout := ["Excerpt (name <email>)"; "(no email column found)"; EmptyString;
                "Breached Databases: 2"];
     json_written := None |}.

(** A file whose reader raises behind the second data row. *)
Definition broken_file : CsvFile :=
  {| text := example_text;
     reader := λ _, Some (Row example_header
                            (rows_then_error (take 2 example_rows) "line contains NUL")) |}.

(** The command line with another preferred domain. *)
Definition with_prefer_domain (d : option string) (args : Args) : Args :=
  {| limit := limit args; email_col := email_col args; name_col := name_col args;
     first_col := first_col args; last_col := last_col args;
     breach_col := breach_col args; delimiter_arg := delimiter_arg args;
     prefer_domain := d; json_file := json_file args |}.

(** ** The order on rank keys and the sort *)

(** The lexicographic order, as a proposition. *)
Lemma key_ltb_true (a b : rank_key) :
  key_ltb a b = true ↔
  a.1.1 < b.1.1 ∨ (a.1.1 = b.1.1 ∧ (a.1.2 < b.1.2 ∨ (a.1.2 = b.1.2 ∧ a.2 < b.2))).
Proof.
  destruct a as [[a1 a2] a3], b as [[b1 b2] b3]; unfold key_ltb; simpl.
  by repeat rewrite ?orb_true_iff, ?andb_true_iff, ?Nat.ltb_lt, ?Nat.eqb_eq.
Qed.

Lemma key_ltb_false (a b : rank_key) :
  key_ltb a b = false ↔
  ¬ (a.1.1 < b.1.1 ∨ (a.1.1 = b.1.1 ∧ (a.1.2 < b.1.2 ∨ (a.1.2 = b.1.2 ∧ a.2 < b.2)))).
Proof. by rewrite <- not_true_iff_false, key_ltb_true. Qed.

Ltac key_lia :=
  unfold key_le in *;
  repeat match goal with
         | H : key_ltb _ _ = true |- _ => apply key_ltb_true in H
         | H : key_ltb _ _ = false |- _ => apply key_ltb_false in H
         end;
  rewrite ?key_ltb_true, ?key_ltb_false;
  lia.

Lemma key_ltb_irrefl (a : rank_key) : key_ltb a a = false.
Proof. key_lia. Qed.

Lemma key_ltb_hit (a b : rank_key) : a.1.1 < b.1.1 → key_ltb a b = true.
Proof. intros H. key_lia. Qed.

#[local] Instance key_le_trans : Transitive key_le.
Proof. intros x y z H1 H2. key_lia. Qed.

Lemma key_le_of_lt (x y : item) : key_ltb x.1 y.1 = true → key_le x y.
Proof. intros H. key_lia. Qed.

Lemma insert_item_perm (x : item) (l : list item) : insert_item x l ≡ₚ x :: l.
Proof.
  induction l as [|y l IH]; simpl; [done|].
  destruct (key_ltb x.1 y.1); [done|].
  rewrite IH. apply Permutation_swap.
Qed.

Lemma insert_item_sorted (x : item) (l : list item) :
  StronglySorted key_le l → StronglySorted key_le (insert_item x l).
Proof.
  induction 1 as [|y l Hl IH Hy]; simpl.
  - repeat constructor.
  - destruct (key_ltb x.1 y.1) eqn:E.
    + constructor; [by constructor|].
      constructor; [by apply key_le_of_lt|].
      eapply Forall_impl; [exact Hy|].
      intros z Hz. etrans; [by apply key_le_of_lt|done].
    + constructor; [done|].
      rewrite insert_item_perm. by constructor.
Qed.

Lemma foldl_insert_perm (l acc : list item) :
  foldl (λ acc x, insert_item x acc) acc l ≡ₚ acc ++ l.
Proof.
  revert acc. induction l as [|x l IH]; intros acc; simpl.
  - by rewrite app_nil_r.
  - rewrite IH, insert_item_perm. simpl. apply Permutation_middle.
Qed.

Lemma foldl_insert_sorted (l acc : list item) :
  StronglySorted key_le acc →
  StronglySorted key_le (foldl (λ acc x, insert_item x acc) acc l).
Proof.
  revert acc. induction l as [|x l IH]; intros acc Hacc; simpl; [done|].
  by apply IH, insert_item_sorted.
Qed.

Lemma sort_items_perm (l : list item) : sort_items l ≡ₚ l.
Proof. unfold sort_items. by rewrite foldl_insert_perm. Qed.

Lemma sort_items_sorted (l : list item) : StronglySorted key_le (sort_items l).
Proof. apply foldl_insert_sorted. constructor. Qed.

(** In a sorted list an element with a smaller key stands at a smaller
    position. *)
Lemma sorted_lookup_le (l : list item) (i j : nat) (x y : item) :
  StronglySorted key_le l → l !! i = Some x → l !! j = Some y → i < j → key_le x y.
Proof.
  intros Hl. revert i j. induction Hl as [|z l Hl IH Hz]; intros i j Hi Hj Hlt.
  - by rewrite lookup_nil in Hi.
  - destruct j as [|j]; [lia|]. destruct i as [|i]; simpl in *.
    + injection Hi as ->. rewrite Forall_lookup in Hz. by eapply Hz.
    + apply (IH i j); [done..|lia].
Qed.

Lemma sorted_lt_position (l : list item) (i j : nat) (x y : item) :
  StronglySorted key_le l → l !! i = Some x → l !! j = Some y →
  key_ltb x.1 y.1 = true → i < j.
Proof.
  intros Hl Hi Hj Hlt.
  destruct (decide (i < j)) as [|Hge]; [done|].
  destruct (decide (i = j)) as [->|Hne].
  - rewrite Hi in Hj. injection Hj as ->. by rewrite key_ltb_irrefl in Hlt.
  - assert (key_le y x) as Hle by (eapply (sorted_lookup_le l j i); [done..|lia]).
    unfold key_le in Hle. congruence.
Qed.

(** ** The de-duplication loop *)

Lemma dedup_kept (lim : Z) (items : list item) (seen : gset string) (ex : list string) :
  dedup lim items seen ex = ex ++ (display_of <$> kept lim items seen (length ex)).
Proof.
  revert seen ex. induction items as [|[k disp] rest IH]; intros seen ex; simpl.
  - by rewrite app_nil_r.
  - case_bool_decide; [apply IH|].
    rewrite length_app, Nat.add_1_r; simpl.
    destruct (lim <=? Z.of_nat (S (length ex)))%Z eqn:E; simpl.
    + done.
    + rewrite IH, length_app, Nat.add_1_r, <- app_assoc. done.
Qed.

Lemma kept_sublist (lim : Z) (items : list item) (seen : gset string) (n : nat) :
  kept lim items seen n `sublist_of` items.
Proof.
  revert seen n. induction items as [|it rest IH]; intros seen n; simpl; [done|].
  case_bool_decide.
  - by apply sublist_cons.
  - apply sublist_skip. destruct (lim <=? Z.of_nat (S n))%Z; [apply sublist_nil_l|apply IH].
Qed.

Lemma kept_fresh (lim : Z) (items : list item) (seen : gset string) (n : nat) (d : string) :
  d ∈ (display_of <$> kept lim items seen n) → d ∉ seen.
Proof.
  revert seen n. induction items as [|it rest IH]; intros seen n; simpl.
  - by intros ?%elem_of_nil.
  - case_bool_decide as Hin; [apply IH|].
    rewrite fmap_cons, elem_of_cons. intros [->|Hd]; [done|].
    destruct (lim <=? Z.of_nat (S n))%Z; [by apply elem_of_nil in Hd|].
    apply IH in Hd. set_solver.
Qed.

Lemma kept_NoDup (lim : Z) (items : list item) (seen : gset string) (n : nat) :
  NoDup (display_of <$> kept lim items seen n).
Proof.
  revert seen n. induction items as [|it rest IH]; intros seen n; simpl.
  - constructor.
  - case_bool_decide as Hin; [apply IH|].
    rewrite fmap_cons. apply NoDup_cons. split.
    + destruct (lim <=? Z.of_nat (S n))%Z; [apply not_elem_of_nil|].
      intros Hd%kept_fresh. set_solver.
    + destruct (lim <=? Z.of_nat (S n))%Z; [constructor|apply IH].
Qed.

Lemma kept_length (lim : Z) (items : list item) (seen : gset string) (n : nat) :
  length (kept lim items seen n) ≤ Nat.max 1 (Z.to_nat lim - n).
Proof.
  revert seen n. induction items as [|it rest IH]; intros seen n; simpl; [lia|].
  case_bool_decide; [apply IH|]. simpl.
  destruct (Z.leb_spec lim (Z.of_nat (S n))) as [Hle|Hgt]; simpl; [lia|].
  specialize (IH ({[it.2]} ∪ seen) (S n)). lia.
Qed.

(** ** The row loop *)

Lemma scan_of_rows (args : Args) (cols : Columns) (rows : list (list string))
    (acc : list item * gset string) :
  scan args cols (of_rows rows) acc = Some (scan_rows args cols rows acc).
Proof.
  revert acc. induction rows as [|row rows IH]; intros acc; simpl; [done|apply IH].
Qed.

Lemma nonempty_true (s : string) : Py.nonempty s = true ↔ s ≠ EmptyString.
Proof. by destruct s. Qed.

Lemma scan_breach_values (cols : Columns) (row : list string) (breaches : gset string) :
  scan_breach cols row breaches
  = list_to_set (breach_values (idx_breach cols) [row]) ∪ breaches.
Proof.
  unfold scan_breach, breach_values. destruct (idx_breach cols) as [i|]; simpl.
  - destruct (row !! i) as [v|]; simpl.
    + rewrite filter_cons, filter_nil.
      destruct (Py.nonempty (normalize v)) eqn:E.
      * apply nonempty_true in E. rewrite decide_True by done. simpl.
        by rewrite (right_id_L ∅ (∪)).
      * rewrite decide_False.
        { simpl. by rewrite (left_id_L ∅ (∪)). }
        intros Hne. apply nonempty_true in Hne. congruence.
    + by rewrite (left_id_L ∅ (∪)).
  - by rewrite (left_id_L ∅ (∪)).
Qed.

Lemma breach_values_cons (idx : option nat) (row : list string) (rows : list (list string)) :
  breach_values idx (row :: rows) = breach_values idx [row] ++ breach_values idx rows.
Proof.
  unfold breach_values. destruct idx as [i|]; [|done]. simpl.
  destruct (row !! i) as [v|]; simpl; [|done].
  rewrite !filter_cons, filter_nil. by case_decide.
Qed.

Lemma scan_rows_breaches (args : Args) (cols : Columns) (rows : list (list string))
    (acc : list item * gset string) :
  (scan_rows args cols rows acc).2
  = list_to_set (breach_values (idx_breach cols) rows) ∪ acc.2.
Proof.
  revert acc. induction rows as [|row rows IH]; intros acc.
  - unfold breach_values. destruct (idx_breach cols); simpl; set_solver.
  - unfold scan_rows in *. cbn [foldl]. rewrite IH. unfold scan_row. cbn [snd].
    rewrite breach_values_cons, list_to_set_app_L, scan_breach_values.
    rewrite (assoc_L (∪)).
    by rewrite (comm_L (∪) (list_to_set (breach_values (idx_breach cols) [row]))).
Qed.

(** ** Runs that read the file to its end *)

Lemma main_of_rows (sniff : string → list ascii → option Dialect) (args : Args)
    (fh : CsvFile) (json_ok : bool) (header : list string) (rows : list (list string)) :
  reader fh (select_dialect sniff args fh) = Some (of_rows (header :: rows)) →
  main sniff args (Some fh) json_ok =
    let result := summary_of args (header :: rows) in
    Returned
      {| summary := result;
         stdout := render (excerpt result) (idx_email (resolve args header))
                     (breached_databases result);
         json_written :=
           if Py.truthy (json_file args) && json_ok then Some result else None |}.
Proof.
  intros Hr. unfold main. rewrite Hr. cbn [of_rows foldr].
  fold (of_rows rows). rewrite scan_of_rows.
  unfold summary_of, ranked.
  destruct (scan_rows args (resolve args header) rows ([], ∅)) as [items breaches].
  cbn [fst snd excerpt breached_databases]. by rewrite dedup_kept.
Qed.

Lemma of_rows_inj (rows rows' : list (list string)) :
  of_rows rows = of_rows rows' → rows = rows'.
Proof.
  revert rows'. induction rows as [|x rows IH]; intros [|y rows']; simpl; intros [=].
  - done.
  - subst. f_equal. by apply IH.
Qed.

Lemma scan_some_of_rows (args : Args) (cols : Columns) (s : csv_stream)
    (acc res : list item * gset string) :
  scan args cols s acc = Some res → ∃ rows, s = of_rows rows.
Proof.
  revert acc. induction s as [|row rest IH|msg]; intros acc; simpl.
  - intros _. by exists [].
  - intros [rows ->]%IH. by exists (row :: rows).
  - done.
Qed.

(** A run that returns has read the rows of the file to the end, and its
    summary is [summary_of]. *)
Lemma main_returned (sniff : string → list ascii → option Dialect) (args : Args)
    (file : option CsvFile) (json_ok : bool) (r : Report) :
  main sniff args file json_ok = Returned r →
  ∃ fh rws, file = Some fh
    ∧ reader fh (select_dialect sniff args fh) = Some (of_rows rws)
    ∧ summary r = summary_of args rws.
Proof.
  destruct file as [fh|]; [|done]. intros Hmain. exists fh.
  destruct (reader fh (select_dialect sniff args fh)) as [s|] eqn:Hr;
    [|by unfold main in Hmain; rewrite Hr in Hmain].
  destruct s as [|header rest|msg].
  - exists []. split; [done|]. split; [done|].
    unfold main in Hmain. rewrite Hr in Hmain.
    destruct (Py.truthy (json_file args)), json_ok; by simplify_eq.
  - assert (∃ rows, rest = of_rows rows) as [rows ->].
    { unfold main in Hmain. rewrite Hr in Hmain.
      destruct (scan args (resolve args header) rest ([], ∅)) as [res|] eqn:Hs; [|done].
      by eapply scan_some_of_rows. }
    exists (header :: rows). split; [done|]. split; [done|].
    rewrite (main_of_rows _ _ _ _ header rows Hr) in Hmain.
    cbv zeta in Hmain. by injection Hmain as <-.
  - by unfold main in Hmain; rewrite Hr in Hmain.
Qed.

(** A file with a header that is read to the end makes [main] return. *)
Lemma main_returns (sniff : string → list ascii → option Dialect) (args : Args)
    (fh : CsvFile) (json_ok : bool) (header : list string) (rows : list (list string)) :
  reader fh (select_dialect sniff args fh) = Some (of_rows (header :: rows)) →
  ∃ r, main sniff args (Some fh) json_ok = Returned r
       ∧ summary r = summary_of args (header :: rows).
Proof. intros Hr. rewrite (main_of_rows _ _ _ _ _ _ Hr). eauto. Qed.

(** ** Column resolution *)

(** C5, as stated, fails: for the header [id, email], the role [email] and
    the explicit name given as the empty string, the chain of the
    specification stops at its substring step with the index 0, the empty
    string being a substring of [id], whereas [choose_col] skips both steps
    of the explicit name and returns the index 1 of the alias [email]. *)
Lemma choose_col_empty_name_counterexample :
  ¬ (∀ hl role explicit, choose_col hl role explicit = choose_col_spec hl role explicit).
Proof.
  intros H. specialize (H ["id"; "email"] "email" (Some EmptyString)).
  vm_compute in H. discriminate H.
Qed.

(** C5, amended.  For every role and every case-folded header,
    [choose_col] returns the first index found by trying in order the exact
    match of the explicit name, the substring match of the explicit name
    and the alias set of the role, and none if all fail, the two steps of
    the explicit name being tried only for a name that is not the empty
    string: an explicit name given as the empty string resolves as if no
    name were given.  When a non-empty explicit name matches nothing, the
    alias lookup decides. *)
Theorem choose_col_resolution_order (hl : list string) (role : string) :
  (∀ explicit, explicit ≠ Some EmptyString →
     choose_col hl role explicit = choose_col_spec hl role explicit)
  ∧ choose_col hl role (Some EmptyString) = choose_col_spec hl role None
  ∧ (∀ e, e ≠ EmptyString →
       first_index (λ h, String.eqb h (Py.lower e)) hl = None →
       first_index (λ h, Py.contains (Py.lower e) h) hl = None →
       choose_col hl role (Some e)
       = first_index (λ h, bool_decide (h ∈ default ∅ (ALIASES !! role))) hl).
Proof.
  assert (∀ explicit, explicit ≠ Some EmptyString →
            choose_col hl role explicit = choose_col_spec hl role explicit) as Hchain.
  { intros explicit Hne. unfold choose_col, choose_col_spec, first_some.
    destruct hl as [|h0 hl]; [by destruct explicit|].
    destruct explicit as [e|]; cbn [mbind option_bind foldr].
    - assert (Py.nonempty e = true) as -> by (apply nonempty_true; congruence).
      destruct (first_index (λ h, String.eqb h (Py.lower e)) (h0 :: hl)); [done|].
      destruct (first_index (λ h, Py.contains (Py.lower e) h) (h0 :: hl)); [done|].
      by destruct (first_index _ (h0 :: hl)).
    - by destruct (first_index _ (h0 :: hl)). }
  split; [exact Hchain|]. split.
  - change (choose_col hl role (Some EmptyString)) with (choose_col hl role None).
    by apply Hchain.
  - intros e Hne H1 H2. rewrite Hchain by congruence.
    unfold choose_col_spec, first_some. cbn [mbind option_bind foldr].
    rewrite H1, H2.
    by destruct (first_index (λ h, bool_decide (h ∈ default ∅ (ALIASES !! role))) hl).
Qed.

Lemma choose_col_resolution_order_witness :
  choose_col ["id"; "e-mail"; "contact"] "email" (Some "Phone")
  = choose_col_spec ["id"; "e-mail"; "contact"] "email" (Some "Phone")
  ∧ choose_col ["id"; "e-mail"; "contact"] "email" (Some "Phone") = Some 1.
Proof.
  destruct (choose_col_resolution_order ["id"; "e-mail"; "contact"] "email")
    as (H1 & _ & H3).
  split; [apply H1; discriminate|].
  rewrite (H3 "Phone"); [reflexivity|discriminate|reflexivity|reflexivity].
Defined.

(** An empty explicit name counts as no name: the alias set decides. *)
Lemma choose_col_empty_explicit (hl : list string) (role : string) :
  choose_col hl role (Some EmptyString) = choose_col hl role None.
Proof. reflexivity. Qed.

(** ** Delimiter fallback *)

Lemma max_scan_bound (best : ascii * nat) (rest : list (ascii * nat)) :
  ∃ n, (max_scan best rest, n) ∈ best :: rest
       ∧ Forall (λ kv, kv.2 ≤ n) (best :: rest).
Proof.
  revert best. induction rest as [|kv rest IH]; intros best; simpl.
  - exists best.2. split; [destruct best; set_solver|]. repeat constructor.
  - destruct (Nat.ltb_spec best.2 kv.2) as [Hlt|Hge].
    + destruct (IH kv) as (n & Hin & Hall). exists n. split; [set_solver|].
      apply Forall_cons in Hall as [Hkv Hall].
      constructor; [lia|]. by constructor.
    + destruct (IH best) as (n & Hin & Hall). exists n. split; [set_solver|].
      apply Forall_cons in Hall as [Hb Hall].
      constructor; [done|]. constructor; [lia|done].
Qed.

Lemma max_scan_first (best : ascii * nat) (rest : list (ascii * nat)) :
  Forall (λ kv, kv.2 ≤ best.2) rest → max_scan best rest = best.1.
Proof.
  induction 1 as [|kv rest Hkv Hall IH]; simpl; [done|].
  destruct (Nat.ltb_spec best.2 kv.2); [lia|done].
Qed.

(** The key [max] picks among the keys [c0 :: cs] with counts [f]. *)
Lemma max_key_fmap (f : ascii → nat) (c0 : ascii) (cs : list ascii) :
  let c := max_key ((λ c, (c, f c)) <$> (c0 :: cs)) in
  c ∈ c0 :: cs
  ∧ (∀ d, d ∈ c0 :: cs → f d ≤ f c)
  ∧ ((∀ d, d ∈ cs → f d ≤ f c0) → c = c0).
Proof.
  intros c. subst c. rewrite fmap_cons. unfold max_key.
  destruct (max_scan_bound (c0, f c0) ((λ c, (c, f c)) <$> cs)) as (n & Hin & Hall).
  rewrite <- (fmap_cons (λ c, (c, f c))) in Hin, Hall.
  apply list_elem_of_fmap in Hin as (c & [= Hc Hn] & Hcand).
  rewrite Forall_fmap, Forall_forall in Hall.
  split; [by rewrite Hc|]. split.
  - intros d Hd. rewrite Hc, <- Hn. by apply (Hall d).
  - intros Hle. apply (max_scan_first (c0, f c0)).
    rewrite Forall_fmap, Forall_forall. exact Hle.
Qed.

Lemma detect_dialect_fallback (sniff : string → list ascii → option Dialect)
    (smp : string) :
  sniff smp candidates = None →
  detect_dialect sniff smp
  = F (if Py.nonempty smp
       then max_key ((λ c, (c, Py.count c smp)) <$> candidates) else ","%char).
Proof. intros H. unfold detect_dialect. by rewrite H. Qed.

(** C7.  When the delimiter is [auto] and sniffing raises, the chosen
    delimiter is a candidate with the highest character count in the
    sample, and it is the comma when the sample is empty or no candidate
    occurs in it. *)
Theorem fallback_delimiter_highest_count
    (sniff : string → list ascii → option Dialect) (args : Args) (fh : CsvFile) :
  delimiter_arg args = "auto" →
  sniff (sample fh) candidates = None →
  ∃ c : ascii,
    delimiter (select_dialect sniff args fh) = String c EmptyString
    ∧ c ∈ candidates
    ∧ (∀ d, d ∈ candidates → Py.count d (sample fh) ≤ Py.count c (sample fh))
    ∧ (sample fh = EmptyString ∨ (∀ d, d ∈ candidates → Py.count d (sample fh) = 0) →
       c = ","%char).
Proof.
  intros Hauto Hsniff. unfold select_dialect.
  rewrite Hauto, String.eqb_refl, (detect_dialect_fallback _ _ Hsniff).
  generalize (sample fh) as smp. intros smp.
  destruct (max_key_fmap (λ c, Py.count c smp) ","%char (tail candidates))
    as (Hin & Hmax & Hfirst).
  change (","%char :: tail candidates) with candidates in Hin, Hmax.
  destruct (Py.nonempty smp) eqn:E.
  - eexists. split; [reflexivity|]. split; [done|]. split; [done|].
    intros [->|Hzero]; [done|].
    apply Hfirst. intros d Hd. rewrite (Hzero d); [lia|]. by apply list_elem_of_further.
  - destruct smp; [|done].
    exists ","%char. split; [done|]. split; [apply list_elem_of_here|].
    split; [simpl; lia|done].
Qed.

Lemma fallback_delimiter_highest_count_witness :
  ∃ c : ascii,
    delimiter (select_dialect no_sniff default_args (plain_file "a;b;c,d"))
    = String c EmptyString
    ∧ c ∈ candidates
    ∧ (∀ d, d ∈ candidates →
         Py.count d (sample (plain_file "a;b;c,d"))
         ≤ Py.count c (sample (plain_file "a;b;c,d")))
    ∧ (sample (plain_file "a;b;c,d") = EmptyString
       ∨ (∀ d, d ∈ candidates → Py.count d (sample (plain_file "a;b;c,d")) = 0) →
       c = ","%char).
Proof.
  apply (fallback_delimiter_highest_count no_sniff default_args (plain_file "a;b;c,d"));
    reflexivity.
Defined.

(** ** The excerpt: duplicates and length *)

(** The loop invariant: [seen] holds the strings of [excerpt_list], and
    [excerpt_list] has no duplicates. *)
Lemma dedup_invariant (lim : Z) (items : list item) (seen : gset string)
    (ex : list string) :
  (∀ x, x ∈ seen ↔ x ∈ ex) → NoDup ex → NoDup (dedup lim items seen ex).
Proof.
  intros Hseen Hex. rewrite dedup_kept. apply NoDup_app. split; [done|]. split.
  - intros x Hx Hk. apply kept_fresh in Hk. by apply Hk, Hseen.
  - apply kept_NoDup.
Qed.

Lemma summary_of_NoDup (args : Args) (rws : list (list string)) :
  NoDup (excerpt (summary_of args rws)).
Proof. destruct rws; simpl; [constructor|apply kept_NoDup]. Qed.

Lemma summary_of_length (args : Args) (rws : list (list string)) :
  length (excerpt (summary_of args rws)) ≤ Nat.max 1 (Z.to_nat (limit args)).
Proof.
  destruct rws as [|header rows]; simpl; [lia|].
  rewrite length_fmap.
  pose proof (kept_length (limit args) (ranked args header rows) ∅ 0). lia.
Qed.

(** The excerpt of a run that returns is never longer than the limit, a
    limit below 1 counting as 1. *)
Lemma excerpt_length_bound (sniff : string → list ascii → option Dialect) (args : Args)
    (file : option CsvFile) (json_ok : bool) (r : Report) :
  main sniff args file json_ok = Returned r →
  (Z.of_nat (length (excerpt (summary r))) ≤ Z.max 1 (limit args))%Z.
Proof.
  intros (fh & rws & _ & _ & ->)%main_returned.
  pose proof (summary_of_length args rws). lia.
Qed.

(** C1.  The excerpt is meant to be at most as long as the limit; with the
    limit 0 and one row that has an email, the loop appends the entry
    before it tests the limit, and the excerpt has one line. *)
Theorem limit_zero_excerpt_has_one_line :
  ∃ r, main no_sniff limit_zero_args (Some (plain_file one_row_text)) true = Returned r
       ∧ excerpt (summary r) = ["a@x.com"]
       ∧ ¬ (Z.of_nat (length (excerpt (summary r))) ≤ limit limit_zero_args)%Z.
Proof.
  eexists. split; [vm_compute; reflexivity|]. split; [reflexivity|].
  vm_compute. intros H. by apply H.
Qed.

(** C6.  The excerpt of every run that returns holds no string twice; a
    file with a header that is read to the end makes the run return; and
    the loop keeps its invariant from any state in which [seen] holds the
    strings of a duplicate-free [excerpt_list]. *)
Theorem excerpt_no_duplicates (sniff : string → list ascii → option Dialect)
    (args : Args) (file : option CsvFile) (json_ok : bool) :
  (∀ r, main sniff args file json_ok = Returned r → NoDup (excerpt (summary r)))
  ∧ (∀ fh header rows,
       file = Some fh →
       reader fh (select_dialect sniff args fh) = Some (of_rows (header :: rows)) →
       ∃ r, main sniff args file json_ok = Returned r)
  ∧ (∀ items seen ex,
       (∀ x, x ∈ seen ↔ x ∈ ex) → NoDup ex → NoDup (dedup (limit args) items seen ex)).
Proof.
  split; [|split].
  - intros r (fh & rws & _ & _ & ->)%main_returned. apply summary_of_NoDup.
  - intros fh header rows -> Hr.
    destruct (main_returns sniff args fh json_ok header rows Hr) as (r & Hm & _). eauto.
  - intros items seen ex. apply dedup_invariant.
Qed.

Lemma excerpt_no_duplicates_witness :
  NoDup (excerpt (summary example_report)).
Proof.
  apply (proj1 (excerpt_no_duplicates no_sniff default_args
                  (Some (plain_file example_text)) true)).
  vm_compute. reflexivity.
Defined.

(** ** The breach count *)

Lemma summary_of_breaches (args : Args) (rws : list (list string)) :
  breached_databases (summary_of args rws)
  = size (list_to_set (breach_values (breach_index args rws) (tail rws)) : gset string).
Proof.
  destruct rws as [|header rows].
  - reflexivity.
  - unfold breach_index. cbn [summary_of breached_databases head tail default].
    rewrite scan_rows_breaches. cbn [snd]. by rewrite (right_id_L ∅ (∪)).
Qed.

(** C3.  When the reader yields the rows [rws], the header first, the
    breach count of a run that returns is the number of distinct non-empty
    trimmed values found at the resolved breach column in the data rows; a
    file with a header makes the run return; and the breach set of the loop
    is that set whatever the other columns, the email column among them,
    resolve to, and whether or not rows yield entries. *)
Theorem breach_count_distinct_values (sniff : string → list ascii → option Dialect)
    (args : Args) (fh : CsvFile) (json_ok : bool) (rws : list (list string)) :
  reader fh (select_dialect sniff args fh) = Some (of_rows rws) →
  (∀ r, main sniff args (Some fh) json_ok = Returned r →
     breached_databases (summary r)
     = size (list_to_set (breach_values (breach_index args rws) (tail rws)) : gset string))
  ∧ (rws ≠ [] → ∃ r, main sniff args (Some fh) json_ok = Returned r)
  ∧ (∀ args' cols' acc,
       idx_breach cols' = breach_index args rws →
       (scan_rows args' cols' (tail rws) acc).2
       = list_to_set (breach_values (breach_index args rws) (tail rws)) ∪ acc.2).
Proof.
  intros Hr. split; [|split].
  - intros r (fh' & rws' & [= <-] & Hr' & ->)%main_returned.
    rewrite Hr in Hr'. injection Hr' as ->%of_rows_inj.
    apply summary_of_breaches.
  - destruct rws as [|header rows]; [done|]. intros _.
    destruct (main_returns sniff args fh json_ok header rows Hr) as (r & Hm & _). eauto.
  - intros args' cols' acc <-. apply scan_rows_breaches.
Qed.

Lemma breach_count_distinct_values_witness :
  breached_databases (summary breach_report)
  = size (list_to_set
            (breach_values (breach_index default_args breach_rows) (tail breach_rows))
          : gset string).
Proof.
  apply (proj1 (breach_count_distinct_values no_sniff default_args
                  (plain_file breach_text) true breach_rows
                  ltac:(vm_compute; reflexivity))).
  vm_compute. reflexivity.
Defined.

(** ** The preferred-domain flag *)

Lemma prefer_hit_zero (args : Args) (dom : string) :
  prefer_hit args dom = 0
  ↔ ∃ D, prefer_domain args = Some D ∧ D ≠ EmptyString ∧ dom = Py.lower D.
Proof.
  unfold prefer_hit. destruct (prefer_domain args) as [d|].
  - destruct (Py.nonempty d) eqn:En; simpl.
    + destruct (String.eqb_spec dom (Py.lower d)) as [->|Hne].
      * split; [|done]. intros _. exists d. by apply nonempty_true in En.
      * split; [done|]. by intros (D & [= <-] & _ & ?).
    + split; [done|]. intros (D & [= <-] & HD & _).
      apply nonempty_true in HD. congruence.
  - split; [done|]. by intros (D & [=] & _).
Qed.

Lemma prefer_hit_range (args : Args) (dom : string) :
  prefer_hit args dom = 0 ∨ prefer_hit args dom = 1.
Proof.
  unfold prefer_hit. destruct (prefer_domain args) as [d|]; [|by right].
  destruct (Py.nonempty d && String.eqb dom (Py.lower d)); auto.
Qed.

(** The email an entry was built from, and its flag. *)
Lemma entry_miss (args : Args) (cols : Columns) (row : list string) (seq : nat)
    (m : item) :
  entry args cols row seq = Some m →
  ∃ i v, idx_email cols = Some i ∧ row !! i = Some v
         ∧ normalize v ≠ EmptyString
         ∧ miss_of m = prefer_hit args (email_domain (normalize v))
         ∧ seq_of m = seq.
Proof.
  unfold entry. destruct (idx_email cols) as [i|]; [|done].
  destruct (row !! i) as [v|] eqn:Hv; [|done].
  destruct (Py.nonempty (normalize v)) eqn:En; [|done]. simpl.
  intros [= <-]. exists i, v. apply nonempty_true in En. done.
Qed.

Lemma no_gt_app_false (a b : string) : no_gt a = false → no_gt (a +:+ b) = false.
Proof.
  induction a as [|c a IH]; simpl; [done|].
  destruct (Ascii.eqb c ">"); simpl; auto.
Qed.

(** The regular expression matches at the first ['@'] that is followed, up
    to the end, by at least one character and no ['>']. *)
Lemma search_domain_some (u w : string) :
  w ≠ EmptyString → no_gt w = true →
  (∀ u1 u2, u = u1 +:+ String "@" u2 → no_gt u2 = false) →
  search_domain (u +:+ String "@" w) = Some w.
Proof.
  intros Hw Hgt. induction u as [|c u IH]; intros Hu; simpl.
  - apply nonempty_true in Hw. by rewrite Hw, Hgt.
  - assert (search_domain (u +:+ String "@" w) = Some w) as Hrec.
    { apply IH. intros u1 u2 ->. by apply (Hu (String c u1) u2). }
    destruct (Ascii.eqb_spec c "@") as [->|Hc]; [|done].
    rewrite (no_gt_app_false u (String "@" w)); [by rewrite andb_false_r|].
    by apply (Hu EmptyString u).
Qed.

Lemma search_domain_none (email : string) :
  (∀ u w, email = u +:+ String "@" w → w = EmptyString ∨ no_gt w = false) →
  search_domain email = None.
Proof.
  induction email as [|c rest IH]; intros H; simpl; [done|].
  assert (search_domain rest = None) as ->.
  { apply IH. intros u w ->. by apply (H (String c u) w). }
  destruct (Ascii.eqb_spec c "@") as [->|Hc]; [|done].
  destruct (H EmptyString rest eq_refl) as [-> | ->]; [done|].
  by rewrite andb_false_r.
Qed.

(** C2, as stated, fails: for the email [a@b@c.com] and the preferred
    domain [C.com] the text after the last ['@'] equals the preferred
    domain, yet the flag of the entry is 1. *)
Lemma prefer_miss_last_at_counterexample :
  ¬ (∀ args cols row seq m i v,
       entry args cols row seq = Some m →
       idx_email cols = Some i → row !! i = Some v →
       miss_of m = prefer_miss_spec (prefer_domain args) (normalize v)).
Proof.
  intros H.
  specialize (H two_at_args (resolve two_at_args ["email"]) ["a@b@c.com"] 0
                ((1, 1, 0), "a@b@c.com") 0 "a@b@c.com").
  vm_compute in H. by specialize (H eq_refl eq_refl eq_refl).
Qed.

(** C2, amended.  The flag of an entry is 0 exactly when a non-empty
    preferred domain is set and [email_domain] of the entry's email equals
    its lower-cased text, and 1 otherwise; [email_domain] is the lower-cased
    text after the first ['@'] of the email that is followed, up to the
    end, by at least one character and no ['>'], and empty when there is no
    such ['@'].  So for an email with several ['@'] and no ['>'] the text
    after the first ['@'] is compared. *)
Theorem prefer_miss_first_at (args : Args) (cols : Columns) (row : list string)
    (seq : nat) (m : item) :
  entry args cols row seq = Some m →
  ∃ i v, idx_email cols = Some i ∧ row !! i = Some v
    ∧ (miss_of m = 0
       ↔ ∃ D, prefer_domain args = Some D ∧ D ≠ EmptyString
              ∧ email_domain (normalize v) = Py.lower D)
    ∧ (miss_of m = 0 ∨ miss_of m = 1)
    ∧ (∀ u w, normalize v = u +:+ String "@" w →
         w ≠ EmptyString → no_gt w = true →
         (∀ u1 u2, u = u1 +:+ String "@" u2 → no_gt u2 = false) →
         email_domain (normalize v) = Py.lower w)
    ∧ ((∀ u w, normalize v = u +:+ String "@" w → w = EmptyString ∨ no_gt w = false) →
       email_domain (normalize v) = EmptyString).
Proof.
  intros (i & v & Hi & Hv & _ & Hm & _)%entry_miss. exists i, v.
  split; [done|]. split; [done|]. rewrite Hm. split; [apply prefer_hit_zero|].
  split; [apply prefer_hit_range|]. split.
  - intros u w -> Hw Hgt Hu. unfold email_domain. by rewrite search_domain_some.
  - intros H. unfold email_domain. by rewrite search_domain_none.
Qed.

Lemma prefer_miss_first_at_witness :
  miss_of ((0, 1, 0), "a@B@c.com") = 0
  ∧ email_domain (normalize "a@B@c.com") = Py.lower "B@c.com".
Proof.
  destruct (prefer_miss_first_at first_at_args (resolve first_at_args ["email"])
              ["a@B@c.com"] 0 ((0, 1, 0), "a@B@c.com") ltac:(vm_compute; reflexivity))
    as (i & v & Hi & Hv & Hmiss & _ & Hfirst & _).
  injection Hi as <-. injection Hv as <-.
  split; [reflexivity|].
  apply (Hfirst "a" "B@c.com"); [reflexivity|discriminate|reflexivity|].
  intros [|c [|c' u1]] u2; discriminate.
Defined.

(** ** The order of the working list *)

Lemma sublist_sorted (l1 l2 : list item) :
  l1 `sublist_of` l2 → StronglySorted key_le l2 → StronglySorted key_le l1.
Proof.
  induction 1 as [|x l1 l2 Hsub IH|x l1 l2 Hsub IH]; intros Hs.
  - constructor.
  - apply StronglySorted_inv in Hs as [Hs Hx]. constructor; [by apply IH|].
    rewrite Forall_forall in *. intros y Hy. apply Hx.
    by apply (sublist_subseteq _ _ Hsub).
  - apply StronglySorted_inv in Hs as [Hs _]. by apply IH.
Qed.

(** In a list sorted by rank key an entry with flag 0 stands before every
    entry with flag 1. *)
Lemma sorted_hits_first (l : list item) (i j : nat) (m n : item) :
  StronglySorted key_le l → l !! i = Some m → l !! j = Some n →
  miss_of m = 0 → miss_of n = 1 → i < j.
Proof.
  intros Hl Hi Hj Hm Hn. apply (sorted_lt_position l i j m n Hl Hi Hj).
  apply key_ltb_hit. unfold miss_of in *. lia.
Qed.

Lemma scan_email_elem (args : Args) (cols : Columns) (row : list string)
    (items : list item) (m : item) :
  m ∈ scan_email args cols row items →
  m ∈ items ∨ ∃ seq, entry args cols row seq = Some m.
Proof.
  unfold scan_email. destruct (entry args cols row (length items)) as [it|] eqn:E.
  - rewrite elem_of_app, list_elem_of_singleton. intros [?| ->]; eauto.
  - auto.
Qed.

Lemma scan_rows_elem (args : Args) (cols : Columns) (rows : list (list string))
    (acc : list item * gset string) (m : item) :
  m ∈ (scan_rows args cols rows acc).1 →
  m ∈ acc.1 ∨ ∃ row seq, row ∈ rows ∧ entry args cols row seq = Some m.
Proof.
  revert acc. induction rows as [|row rows IH]; intros acc; [by left|].
  unfold scan_rows in *. cbn [foldl]. intros [Hm|(row' & seq & Hin & He)]%IH.
  - unfold scan_row in Hm. cbn [fst] in Hm.
    apply scan_email_elem in Hm as [?|[seq He]]; [by left|].
    right. exists row, seq. split; [apply list_elem_of_here|done].
  - right. exists row', seq. split; [by apply list_elem_of_further|done].
Qed.

Lemma ranked_elem (args : Args) (header : list string) (rows : list (list string))
    (m : item) :
  m ∈ ranked args header rows →
  ∃ row seq, row ∈ rows ∧ entry args (resolve args header) row seq = Some m.
Proof.
  unfold ranked. rewrite sort_items_perm.
  intros [Hm|H]%scan_rows_elem; [|done]. by apply elem_of_nil in Hm.
Qed.

Lemma scan_email_numbered (args : Args) (cols : Columns) (row : list string)
    (items : list item) :
  numbered items → numbered (scan_email args cols row items).
Proof.
  intros Hn. unfold scan_email.
  destruct (entry args cols row (length items)) as [it|] eqn:E; [|done].
  intros i m [[_ Hi]|[-> <-]]%lookup_snoc_Some; [by apply Hn|].
  by destruct (entry_miss _ _ _ _ _ E) as (? & ? & _ & _ & _ & _ & ?).
Qed.

Lemma scan_rows_numbered (args : Args) (cols : Columns) (rows : list (list string))
    (acc : list item * gset string) :
  numbered acc.1 → numbered (scan_rows args cols rows acc).1.
Proof.
  revert acc. induction rows as [|row rows IH]; intros acc Hn; [done|].
  unfold scan_rows in *. cbn [foldl]. apply IH. by apply scan_email_numbered.
Qed.

(** The keys of the working list are pairwise distinct, so it is the only
    arrangement of the scanned entries in ascending key order: whatever
    sort produces such an arrangement produces [ranked]. *)
Lemma ranked_unique (args : Args) (header : list string) (rows : list (list string))
    (l : list item) :
  l ≡ₚ (scan_rows args (resolve args header) rows ([], ∅)).1 →
  StronglySorted key_le l →
  l = ranked args header rows.
Proof.
  intros Hperm Hsorted.
  assert (numbered (scan_rows args (resolve args header) rows ([], ∅)).1) as Hnum.
  { apply scan_rows_numbered. intros i m H. cbn [fst] in H. by destruct i. }
  apply (StronglySorted_unique_strong key_le); [|done|apply sort_items_sorted|].
  - intros x y Hx Hy Hxy Hyx.
    rewrite Hperm in Hx. unfold ranked in Hy. rewrite sort_items_perm in Hy.
    apply list_elem_of_lookup in Hx as [i Hi]. apply list_elem_of_lookup in Hy as [j Hj].
    pose proof (Hnum i x Hi) as Hsx. pose proof (Hnum j y Hj) as Hsy.
    assert (i = j) as ->; [|congruence].
    unfold seq_of in *. key_lia.
  - unfold ranked. by rewrite sort_items_perm.
Qed.

(** C9, as stated, fails: with the preferred domain [Corp.org] and the
    rows [a@x.com] and [b@z@corp.org], the text after the last ['@'] of the
    second email equals the preferred domain and that of the first does
    not, both entries are without a name, and yet the entry of the second
    row stands behind that of the first in the sorted working list. *)
Lemma preferred_last_at_order_counterexample :
  ¬ (∀ args header rows i j m n rowm rown sm sn k vm vn,
       ranked args header rows !! i = Some m →
       ranked args header rows !! j = Some n →
       entry args (resolve args header) rowm sm = Some m →
       entry args (resolve args header) rown sn = Some n →
       rowm ∈ rows → rown ∈ rows →
       idx_email (resolve args header) = Some k →
       rowm !! k = Some vm → rown !! k = Some vn →
       prefer_miss_spec (prefer_domain args) (normalize vm) = 0 →
       prefer_miss_spec (prefer_domain args) (normalize vn) = 1 →
       noname_of m = noname_of n →
       i < j).
Proof.
  intros H.
  specialize (H prefer_args ["email"] [["a@x.com"]; ["b@z@corp.org"]] 1 0
                ((1, 1, 1), "b@z@corp.org") ((1, 1, 0), "a@x.com")
                ["b@z@corp.org"] ["a@x.com"] 1 0 0 "b@z@corp.org" "a@x.com").
  assert (1 < 0) as Hlt; [|lia].
  apply H; try (vm_compute; reflexivity).
  - apply list_elem_of_further, list_elem_of_here.
  - apply list_elem_of_here.
Qed.

(** C9, amended.  With a non-empty preferred domain [D], in the sorted
    working list and in the list of entries kept for the excerpt, every
    entry whose email domain, as [email_domain] computes it (the lower-cased
    text after the first ['@'] that is followed to the end by at least one
    character and no ['>']), equals the lower-cased [D] stands before every
    entry whose domain differs and whose name flag is the same; the entries
    of the working list are those built from the rows, their flag being 0
    exactly for the domain [D]; and the excerpt is the display strings of
    the kept entries, a sublist of the working list. *)
Theorem preferred_domain_entries_first (sniff : string → list ascii → option Dialect)
    (args : Args) (fh : CsvFile) (json_ok : bool) (header : list string)
    (rows : list (list string)) (D : string) :
  prefer_domain args = Some D → D ≠ EmptyString →
  reader fh (select_dialect sniff args fh) = Some (of_rows (header :: rows)) →
  let sorted := ranked args header rows in
  let shown := kept (limit args) sorted ∅ 0 in
  (∃ r, main sniff args (Some fh) json_ok = Returned r
        ∧ excerpt (summary r) = display_of <$> shown)
  ∧ shown `sublist_of` sorted
  ∧ (∀ m, m ∈ sorted →
       ∃ row seq i v, row ∈ rows
         ∧ entry args (resolve args header) row seq = Some m
         ∧ idx_email (resolve args header) = Some i ∧ row !! i = Some v
         ∧ (miss_of m = 0 ↔ email_domain (normalize v) = Py.lower D)
         ∧ (miss_of m = 0 ∨ miss_of m = 1))
  ∧ (∀ l, l = sorted ∨ l = shown →
       ∀ i j m n, l !! i = Some m → l !! j = Some n →
         miss_of m = 0 → miss_of n = 1 → noname_of m = noname_of n → i < j).
Proof.
  intros HD HDne Hr sorted shown. split; [|split; [|split]].
  - destruct (main_returns sniff args fh json_ok header rows Hr) as (r & Hm & Hs).
    exists r. split; [done|]. by rewrite Hs.
  - apply kept_sublist.
  - intros m (row & seq & Hrow & He)%ranked_elem.
    destruct (entry_miss _ _ _ _ _ He) as (i & v & Hi & Hv & _ & Hm & _).
    exists row, seq, i, v. split; [done|]. split; [done|]. split; [done|].
    split; [done|]. rewrite Hm. split; [|apply prefer_hit_range].
    rewrite prefer_hit_zero. split.
    + intros (D' & HD' & _ & ->). congruence.
    + intros ->. by exists D.
  - assert (StronglySorted key_le sorted) as Hsorted by apply sort_items_sorted.
    intros l [-> | ->] i j m n Hi Hj Hm Hn _.
    + by apply (sorted_hits_first sorted i j m n).
    + apply (sorted_hits_first shown i j m n); [|done..].
      eapply sublist_sorted; [apply kept_sublist|done].
Qed.

Lemma preferred_domain_entries_first_witness :
  ranked prefer_args prefer_header prefer_rows
  = [((0, 0, 3), "Dee <d@CORP.org>"); ((0, 1, 2), "c@corp.org");
     ((1, 0, 0), "Ann <a@x.com>"); ((1, 1, 1), "b@x.com")]
  ∧ 1 < 3.
Proof.
  split; [vm_compute; reflexivity|].
  destruct (preferred_domain_entries_first no_sniff prefer_args (plain_file prefer_text)
              true prefer_header prefer_rows "Corp.org" eq_refl
              ltac:(discriminate) ltac:(vm_compute; reflexivity))
    as (_ & _ & _ & Horder).
  apply (Horder (ranked prefer_args prefer_header prefer_rows) (or_introl eq_refl)
           1 3 ((0, 1, 2), "c@corp.org") ((1, 1, 1), "b@x.com"));
    vm_compute; reflexivity.
Defined.

(** ** Worked examples *)

(** C4.  For the header [email,first_name,last_name,breach] and the rows
    [a@x.com,Ann,Lee,LinkedIn], [b@x.com,,,Dropbox], [a@x.com,Ann,Lee,Adobe],
    with the limit 10, no preferred domain and no column overrides, the run
    returns the excerpt [Ann Lee <a@x.com>], [b@x.com] in that order and the
    breach count 3. *)
Theorem example_excerpt_and_count (sniff : string → list ascii → option Dialect)
    (args : Args) (fh : CsvFile) (json_ok : bool) :
  limit args = 10%Z → prefer_domain args = None →
  email_col args = None → name_col args = None → first_col args = None →
  last_col args = None → breach_col args = None →
  reader fh (select_dialect sniff args fh)
  = Some (of_rows (example_header :: example_rows)) →
  ∃ r, main sniff args (Some fh) json_ok = Returned r
       ∧ excerpt (summary r) = ["Ann Lee <a@x.com>"; "b@x.com"]
       ∧ breached_databases (summary r) = 3
       ∧ stdout r = ["Excerpt (name <email>)"; "Ann Lee <a@x.com>"; "b@x.com";
                     EmptyString; "Breached Databases: 3"].
Proof.
  intros Hl Hp He Hn Hf Hla Hb Hr.
  rewrite (main_of_rows _ _ _ _ _ _ Hr). eexists. split; [reflexivity|].
  destruct args; simpl in Hl, Hp, He, Hn, Hf, Hla, Hb; subst.
  cbn [summary stdout]. by vm_compute.
Qed.

Lemma example_excerpt_and_count_witness :
  ∃ r, main no_sniff default_args (Some (plain_file example_text)) true = Returned r
       ∧ excerpt (summary r) = ["Ann Lee <a@x.com>"; "b@x.com"]
       ∧ breached_databases (summary r) = 3
       ∧ stdout r = ["Excerpt (name <email>)"; "Ann Lee <a@x.com>"; "b@x.com";
                     EmptyString; "Breached Databases: 3"].
Proof.
  apply (example_excerpt_and_count no_sniff default_args (plain_file example_text) true);
    vm_compute; reflexivity.
Defined.

(** C10.  Breach values that differ only in letter case are distinct: a
    file with the breach values [LinkedIn] and [linkedin] has the breach
    count 2. *)
Theorem breach_values_case_sensitive :
  normalize "LinkedIn" ≠ normalize "linkedin"
  ∧ ∃ r, main no_sniff default_args (Some (plain_file case_text)) true = Returned r
         ∧ breached_databases (summary r) = 2.
Proof.
  split; [by vm_compute|]. eexists. split; [vm_compute; reflexivity|]. reflexivity.
Qed.

(** ** The empty file *)

(** The run over an empty file when the JSON file, if asked for, can be
    written. *)
Lemma empty_input_report (sniff : string → list ascii → option Dialect) (args : Args)
    (fh : CsvFile) (json_ok : bool) :
  reader fh (select_dialect sniff args fh) = Some Eof →
  Py.truthy (json_file args) = false ∨ json_ok = true →
  ∃ r, main sniff args (Some fh) json_ok = Returned r
       ∧ summary r = {| excerpt := []; breached_databases := 0 |}
       ∧ stdout r = EMPTY_REPORT.
Proof.
  intros Hr Hj. unfold main. rewrite Hr.
  destruct (Py.truthy (json_file args)), json_ok; eauto; by destruct Hj.
Qed.

(** C8.  An empty file is meant not to fail the run.  When a JSON file is
    asked for and cannot be opened, the branch of the empty file prints its
    report and lets the exception leave [main], whereas on a file with rows
    the same failure is caught and the run returns. *)
Theorem empty_input_unwritable_json_raises :
  main no_sniff sidecar_args (Some (plain_file EmptyString)) false = Uncaught EMPTY_REPORT
  ∧ ∃ r, main no_sniff sidecar_args (Some (plain_file one_row_text)) false = Returned r
         ∧ json_written r = None.
Proof.
  split; [vm_compute; reflexivity|]. eexists. split; [vm_compute; reflexivity|]. reflexivity.
Qed.

(** ** Strings: stripping and lower-casing *)

Lemma lstrip_head (s : string) (c : ascii) (r : string) :
  Py.lstrip s = String c r → Py.isspace c = false.
Proof.
  induction s as [|d s IH]; simpl; [done|].
  destruct (Py.isspace d) eqn:E; [done|]. by intros [= <- _].
Qed.

Lemma lstrip_blank (s : string) : Py.lstrip s = EmptyString ↔ blank s = true.
Proof.
  induction s as [|d s IH]; simpl; [done|].
  destruct (Py.isspace d); simpl; [done|]. split; discriminate.
Qed.

Lemma rstrip_blank (s : string) : Py.rstrip s = EmptyString ↔ blank s = true.
Proof.
  induction s as [|d s IH]; simpl; [done|].
  destruct (Py.rstrip s) as [|e r].
  - destruct (Py.isspace d); simpl; [by rewrite <- IH|]. split; discriminate.
  - split; [done|]. intros [_ H]%andb_true_iff. by apply IH in H.
Qed.

Lemma rstrip_cons (c : ascii) (s : string) :
  Py.rstrip (String c s)
  = match Py.rstrip s with
    | EmptyString => if Py.isspace c then EmptyString else String c EmptyString
    | r => String c r
    end.
Proof. reflexivity. Qed.

Lemma rstrip_idem (s : string) : Py.rstrip (Py.rstrip s) = Py.rstrip s.
Proof.
  induction s as [|d s IH]; [done|]. rewrite rstrip_cons.
  destruct (Py.rstrip s) as [|e r] eqn:E.
  - destruct (Py.isspace d) eqn:Ed; simpl; [done|]. by rewrite Ed.
  - by rewrite rstrip_cons, IH.
Qed.

(** A string that starts with a non-blank keeps its start under [rstrip]. *)
Lemma rstrip_keeps_head (c : ascii) (r : string) :
  Py.isspace c = false → ∃ r', Py.rstrip (String c r) = String c r'.
Proof.
  intros Hc. simpl. destruct (Py.rstrip r) as [|e r'].
  - rewrite Hc. by eexists.
  - by eexists.
Qed.

Lemma strip_head (s : string) (c : ascii) (r : string) :
  Py.strip s = String c r → Py.isspace c = false.
Proof.
  unfold Py.strip. destruct (Py.lstrip s) as [|d t] eqn:E; [done|].
  pose proof (lstrip_head _ _ _ E) as Hd.
  destruct (rstrip_keeps_head d t Hd) as [r' ->]. by intros [= <- _].
Qed.

Lemma lstrip_fixed (s : string) (c : ascii) (r : string) :
  s = String c r → Py.isspace c = false → Py.lstrip s = s.
Proof. intros -> Hc. simpl. by rewrite Hc. Qed.

Lemma strip_idem (s : string) : Py.strip (Py.strip s) = Py.strip s.
Proof.
  destruct (Py.strip s) as [|c r] eqn:E; [done|].
  pose proof (strip_head _ _ _ E) as Hc.
  unfold Py.strip. rewrite (lstrip_fixed _ c r eq_refl Hc).
  rewrite <- E. unfold Py.strip. apply rstrip_idem.
Qed.

Lemma strip_blank (s : string) : Py.strip s = EmptyString ↔ blank s = true.
Proof.
  unfold Py.strip. rewrite <- lstrip_blank. split.
  - intros H. destruct (Py.lstrip s) as [|c r] eqn:E; [done|].
    destruct (rstrip_keeps_head c r (lstrip_head _ _ _ E)) as [r' Hr]. congruence.
  - by intros ->.
Qed.

Lemma lower_char_idem (c : ascii) : Py.lower_char (Py.lower_char c) = Py.lower_char c.
Proof. destruct c as [[] [] [] [] [] [] [] []]; reflexivity. Qed.

Lemma isspace_lower_char (c : ascii) : Py.isspace (Py.lower_char c) = Py.isspace c.
Proof. destruct c as [[] [] [] [] [] [] [] []]; reflexivity. Qed.

Lemma lower_idem (s : string) : Py.lower (Py.lower s) = Py.lower s.
Proof. induction s as [|c s IH]; simpl; [done|]. by rewrite lower_char_idem, IH. Qed.

Lemma nonempty_lower (s : string) : Py.nonempty (Py.lower s) = Py.nonempty s.
Proof. by destruct s. Qed.

Lemma lstrip_lower (s : string) : Py.lstrip (Py.lower s) = Py.lower (Py.lstrip s).
Proof.
  induction s as [|c s IH]; simpl; [done|].
  rewrite isspace_lower_char. by destruct (Py.isspace c).
Qed.

Lemma rstrip_lower (s : string) : Py.rstrip (Py.lower s) = Py.lower (Py.rstrip s).
Proof.
  induction s as [|c s IH]; simpl; [done|].
  rewrite IH, isspace_lower_char.
  destruct (Py.rstrip s) as [|e r]; simpl; [|done]. by destruct (Py.isspace c).
Qed.

Lemma strip_lower (s : string) : Py.strip (Py.lower s) = Py.lower (Py.strip s).
Proof. unfold Py.strip. by rewrite lstrip_lower, rstrip_lower. Qed.

(** X1.  [normalize] is idempotent, and its result is empty exactly when
    every character of the field is whitespace. *)
Theorem normalize_idempotent_blank (s : string) :
  normalize (normalize s) = normalize s
  ∧ (normalize s = EmptyString ↔ blank s = true).
Proof. split; [apply strip_idem|apply strip_blank]. Qed.

(** ** Column resolution: what the index points at *)

Lemma string_app_cons (c : ascii) (a b : string) :
  String c a +:+ b = String c (a +:+ b).
Proof. reflexivity. Qed.

Lemma string_app_nil_r (s : string) : s +:+ EmptyString = s.
Proof. induction s as [|c s IH]; [done|]. by rewrite string_app_cons, IH. Qed.

Lemma string_app_assoc (a b c : string) : a +:+ b +:+ c = (a +:+ b) +:+ c.
Proof. induction a as [|d a IH]; [done|]. by rewrite !string_app_cons, IH. Qed.

Lemma prefix_app (sub s : string) :
  String.prefix sub s = true ↔ ∃ b, s = sub +:+ b.
Proof.
  revert s. induction sub as [|a sub IH]; intros s; simpl.
  - destruct s; (split; [by eexists|done]).
  - destruct s as [|c s]; simpl.
    + split; [done|]. by intros [b [=]].
    + destruct (ascii_dec a c) as [->|Hne].
      * rewrite IH. split; intros [b Hb]; exists b; [by subst|].
        rewrite string_app_cons in Hb. congruence.
      * split; [done|]. intros [b [= ? _]]. done.
Qed.

(** [Py.contains] is the substring test. *)
Lemma contains_app (sub s : string) :
  Py.contains sub s = true ↔ ∃ a b, s = a +:+ sub +:+ b.
Proof.
  induction s as [|c s IH].
  - cbn [Py.contains]. rewrite orb_false_r, prefix_app. split.
    + intros [b Hb]. by exists EmptyString, b.
    + intros ([|? ?] & b & Hb); [by exists b|done].
  - cbn [Py.contains]. rewrite orb_true_iff, prefix_app, IH. split.
    + intros [[b Hb]|(a & b & ->)]; [by exists EmptyString, b|by exists (String c a), b].
    + intros ([|c' a] & b & Hb); [left; by exists b|].
      right. injection Hb as -> ->. by exists a, b.
Qed.

Lemma first_index_Some (p : string → bool) (l : list string) (i : nat) :
  first_index p l = Some i ↔
  ∃ h, l !! i = Some h ∧ p h = true ∧ ∀ j y, l !! j = Some y → j < i → p y = false.
Proof.
  unfold first_index. destruct (list_find (λ h, p h = true) l) as [[k x]|] eqn:E; simpl.
  - apply list_find_Some in E as (Hk & Hp & Hmin). split.
    + intros [= <-]. exists x. split; [done|]. split; [done|].
      intros j y Hj Hlt. specialize (Hmin j y Hj Hlt). by destruct (p y).
    + intros (h & Hi & Hh & Hmin'). f_equal.
      destruct (Nat.lt_trichotomy k i) as [Hlt|[->|Hgt]]; [|done|].
      * specialize (Hmin' k x Hk Hlt). congruence.
      * by specialize (Hmin i h Hi Hgt).
  - split; [done|]. intros (h & Hi & Hh & _).
    rewrite list_find_None, Forall_forall in E.
    exfalso. apply (E h); [|done]. by apply list_elem_of_lookup_2 in Hi.
Qed.

(** X2.  An index returned by [choose_col] lies inside the header, and the
    header cell it points at either contains the lower-cased explicit name
    (given and not empty) or belongs to the alias set of the role. *)
Theorem choose_col_sound (hl : list string) (role : string) (explicit : option string)
    (i : nat) :
  choose_col hl role explicit = Some i →
  i < length hl
  ∧ ∃ h, hl !! i = Some h
      ∧ ((∃ e a b, explicit = Some e ∧ e ≠ EmptyString ∧ h = a +:+ Py.lower e +:+ b)
         ∨ h ∈ default ∅ (ALIASES !! role)).
Proof.
  intros H.
  assert (∃ h, hl !! i = Some h
      ∧ ((∃ e a b, explicit = Some e ∧ e ≠ EmptyString ∧ h = a +:+ Py.lower e +:+ b)
         ∨ h ∈ default ∅ (ALIASES !! role))) as (h & Hi & Hh);
    [|split; [by apply lookup_lt_Some in Hi|by exists h]].
  unfold choose_col in H. destruct hl as [|h0 hl']; [done|].
  set (hl := h0 :: hl') in *.
  assert (first_index (λ h, bool_decide (h ∈ default ∅ (ALIASES !! role))) hl = Some i →
          ∃ h, hl !! i = Some h
      ∧ ((∃ e a b, explicit = Some e ∧ e ≠ EmptyString ∧ h = a +:+ Py.lower e +:+ b)
         ∨ h ∈ default ∅ (ALIASES !! role))) as Halias.
  { intros (h & Hi & Hh & _)%first_index_Some. exists h. split; [done|]. right.
    by apply bool_decide_eq_true in Hh. }
  destruct explicit as [e|]; [|by apply Halias].
  destruct (Py.nonempty e) eqn:En; [|by apply Halias].
  apply nonempty_true in En.
  destruct (first_index (λ h, String.eqb h (Py.lower e)) hl) as [k|] eqn:E1.
  - injection H as <-. apply first_index_Some in E1 as (h & Hk & Hh & _).
    apply String.eqb_eq in Hh as ->. exists (Py.lower e). split; [done|]. left.
    exists e, EmptyString, EmptyString. split; [done|]. split; [done|].
    by rewrite string_app_nil_r.
  - destruct (first_index (λ h, Py.contains (Py.lower e) h) hl) as [k|] eqn:E2.
    + injection H as <-. apply first_index_Some in E2 as (h & Hk & Hh & _).
      apply contains_app in Hh as (a & b & ->). exists (a +:+ Py.lower e +:+ b).
      split; [done|]. left. by exists e, a, b.
    + by apply Halias.
Qed.

Lemma choose_col_sound_witness :
  2 < length ["id"; "when"; "user_mail_1"]
  ∧ ∃ h, ["id"; "when"; "user_mail_1"] !! 2 = Some h
      ∧ ((∃ e a b, Some "Mail" = Some e ∧ e ≠ EmptyString ∧ h = a +:+ Py.lower e +:+ b)
         ∨ h ∈ default ∅ (ALIASES !! "email")).
Proof.
  apply (choose_col_sound ["id"; "when"; "user_mail_1"] "email" (Some "Mail") 2).
  vm_compute. reflexivity.
Defined.

(** X3.  The explicit column name is matched without regard to letter
    case: giving it lower-cased resolves the same column. *)
Theorem choose_col_explicit_case_insensitive (hl : list string) (role e : string) :
  choose_col hl role (Some (Py.lower e)) = choose_col hl role (Some e).
Proof. unfold choose_col. by rewrite nonempty_lower, lower_idem. Qed.

Lemma header_lower_idem (header : list string) :
  header_lower (header_lower header) = header_lower header.
Proof.
  unfold header_lower. rewrite <- list_fmap_compose. apply list_fmap_ext.
  intros _ h _. simpl. unfold normalize.
  by rewrite <- strip_lower, lower_idem, strip_lower, strip_idem.
Qed.

(** X4.  Header cells are matched after trimming and lower-casing, so the
    columns resolved for a header are those resolved for its trimmed,
    lower-cased form. *)
Theorem resolve_header_normalised (args : Args) (header : list string) :
  resolve args (header_lower header) = resolve args header.
Proof. unfold resolve. by rewrite header_lower_idem. Qed.

(** ** Delimiter fallback: ties *)

(** [max_scan] stops at the first entry with the largest count. *)
Lemma max_scan_first_max (best : ascii * nat) (rest : list (ascii * nat)) :
  ∃ pre post n,
    best :: rest = pre ++ (max_scan best rest, n) :: post
    ∧ Forall (λ kv, kv.2 < n) pre ∧ Forall (λ kv, kv.2 ≤ n) post.
Proof.
  revert best. induction rest as [|kv rest IH]; intros best.
  - exists [], [], best.2. destruct best. by repeat constructor.
  - cbn [max_scan]. destruct (Nat.ltb_spec best.2 kv.2) as [Hlt|Hge].
    + destruct (IH kv) as (pre & post & n & Heq & Hpre & Hpost).
      exists (best :: pre), post, n. split; [by rewrite Heq|]. split; [|done].
      constructor; [|done].
      destruct pre as [|x pre]; simpl in Heq.
      * injection Heq as Hkv _. rewrite Hkv in Hlt. done.
      * injection Heq as <- _. apply Forall_cons in Hpre as [Hx _]. lia.
    + destruct (IH best) as (pre & post & n & Heq & Hpre & Hpost).
      destruct pre as [|x pre]; simpl in Heq.
      * injection Heq as Hb <-. exists [], (kv :: rest), n.
        split; [by rewrite <- Hb|]. split; [done|].
        constructor; [rewrite Hb in Hge; simpl in Hge; lia|done].
      * injection Heq as <- Hrest. exists (best :: kv :: pre), post, n.
        split; [simpl; by do 2 f_equal|]. split; [|done].
        apply Forall_cons in Hpre as [Hb Hpre].
        constructor; [done|]. constructor; [lia|done].
Qed.

Lemma max_key_fmap_first (f : ascii → nat) (c0 : ascii) (cs : list ascii) :
  let c := max_key ((λ c, (c, f c)) <$> (c0 :: cs)) in
  ∃ pre post,
    c0 :: cs = pre ++ c :: post
    ∧ (∀ d, d ∈ pre → f d < f c) ∧ (∀ d, d ∈ post → f d ≤ f c).
Proof.
  intros c. subst c. rewrite fmap_cons. unfold max_key.
  destruct (max_scan_first_max (c0, f c0) ((λ c, (c, f c)) <$> cs))
    as (pre & post & n & Heq & Hpre & Hpost).
  set (c := max_scan (c0, f c0) ((λ c, (c, f c)) <$> cs)) in *. clearbody c.
  rewrite <- (fmap_cons (λ c, (c, f c))) in Heq.
  apply fmap_app_inv in Heq as (pre' & rest' & -> & Hrest & Hcand).
  symmetry in Hrest. apply fmap_cons_inv in Hrest as (c' & post' & Hc & -> & ->).
  injection Hc as <- <-.
  exists pre', post'. split; [done|].
  rewrite !Forall_fmap, !Forall_forall in *. split.
  - intros d Hd. by apply (Hpre d).
  - intros d Hd. by apply (Hpost d).
Qed.

(** X5.  When sniffing raises on a non-empty sample, the delimiter chosen
    is the first candidate, in the order comma, semicolon, tab, bar, colon,
    whose count in the sample is the largest: every candidate before it
    occurs strictly less often, every candidate behind it at most as
    often. *)
Theorem fallback_delimiter_first_maximum
    (sniff : string → list ascii → option Dialect) (smp : string) :
  sniff smp candidates = None → smp ≠ EmptyString →
  ∃ c pre post,
    delimiter (detect_dialect sniff smp) = String c EmptyString
    ∧ candidates = pre ++ c :: post
    ∧ (∀ d, d ∈ pre → Py.count d smp < Py.count c smp)
    ∧ (∀ d, d ∈ post → Py.count d smp ≤ Py.count c smp).
Proof.
  intros Hsniff Hne. rewrite (detect_dialect_fallback _ _ Hsniff).
  apply nonempty_true in Hne. rewrite Hne.
  destruct (max_key_fmap_first (λ c, Py.count c smp) ","%char (tail candidates))
    as (pre & post & Heq & Hpre & Hpost).
  change (","%char :: tail candidates) with candidates in Heq, Hpre, Hpost.
  eexists _, pre, post. split; [reflexivity|]. by split.
Qed.

Lemma fallback_delimiter_first_maximum_witness :
  ∃ c pre post,
    delimiter (detect_dialect no_sniff "a;b|c") = String c EmptyString
    ∧ candidates = pre ++ c :: post
    ∧ (∀ d, d ∈ pre → Py.count d "a;b|c" < Py.count c "a;b|c")
    ∧ (∀ d, d ∈ post → Py.count d "a;b|c" ≤ Py.count c "a;b|c").
Proof.
  apply (fallback_delimiter_first_maximum no_sniff "a;b|c"); [reflexivity|discriminate].
Defined.

(** ** Names *)

Lemma rstrip_strip (s : string) : Py.rstrip (Py.strip s) = Py.strip s.
Proof. unfold Py.strip. apply rstrip_idem. Qed.

(** Appending in front of a non-empty string that [rstrip] leaves alone. *)
Lemma rstrip_app_fixed (a b : string) :
  b ≠ EmptyString → Py.rstrip b = b → Py.rstrip (a +:+ b) = a +:+ b.
Proof.
  intros Hb Hfix. induction a as [|c a IH]; [done|].
  rewrite string_app_cons, rstrip_cons, IH.
  destruct (a +:+ b) eqn:E; [|done].
  destruct a; [change (b = EmptyString) in E; congruence|].
  by rewrite string_app_cons in E.
Qed.

Lemma field_or_empty_stripped (row : list string) (idx : option nat) :
  Py.strip (field_or_empty row idx) = field_or_empty row idx.
Proof.
  unfold field_or_empty. destruct idx as [i|]; [|done].
  destruct (row !! i); [apply strip_idem|done].
Qed.

(** Two stripped, non-empty strings joined by a blank are left alone by
    [strip]. *)
Lemma strip_join (a b : string) :
  Py.strip a = a → Py.strip b = b → a ≠ EmptyString → b ≠ EmptyString →
  Py.strip (a +:+ " " +:+ b) = a +:+ " " +:+ b.
Proof.
  intros Ha Hb Hane Hbne. destruct a as [|c r] eqn:Ea; [done|].
  assert (Py.isspace c = false) as Hc by (by eapply strip_head).
  unfold Py.strip. rewrite string_app_cons.
  rewrite (lstrip_fixed _ c _ eq_refl Hc), <- string_app_cons.
  rewrite string_app_assoc.
  apply rstrip_app_fixed; [done|]. rewrite <- Hb. apply rstrip_strip.
Qed.

(** X6.  The name built for a row is the trimmed full-name field when that
    is not empty; otherwise the trimmed first and last names joined by one
    blank when both are non-empty, and the one that is non-empty when the
    other is empty or out of the row's range.  The result carries no
    leading or trailing whitespace. *)
Theorem build_name_join (row : list string) (idx_name idx_first idx_last : option nat) :
  let name := field_or_empty row idx_name in
  let fn := field_or_empty row idx_first in
  let ln := field_or_empty row idx_last in
  build_name row idx_name idx_first idx_last
  = (if Py.nonempty name then name
     else if Py.nonempty fn then (if Py.nonempty ln then fn +:+ " " +:+ ln else fn)
     else ln)
  ∧ normalize (build_name row idx_name idx_first idx_last)
    = build_name row idx_name idx_first idx_last.
Proof.
  intros name fn ln.
  assert (build_name row idx_name idx_first idx_last
          = (if Py.nonempty name then name
             else if Py.nonempty fn then (if Py.nonempty ln then fn +:+ " " +:+ ln else fn)
             else ln)) as Heq.
  { unfold build_name. fold name fn ln.
    destruct (Py.nonempty name); [done|].
    pose proof (field_or_empty_stripped row idx_first) as Hfn.
    pose proof (field_or_empty_stripped row idx_last) as Hln. fold fn in Hfn. fold ln in Hln.
    destruct (Py.nonempty fn) eqn:Ef, (Py.nonempty ln) eqn:El; simpl.
    - apply strip_join; [done..| |]; by apply nonempty_true.
    - destruct ln; [|done]. by rewrite !string_app_nil_r.
    - by destruct fn.
    - destruct fn; [|done]. by destruct ln. }
  split; [done|]. rewrite Heq. unfold normalize.
  pose proof (field_or_empty_stripped row idx_name) as Hn. fold name in Hn.
  pose proof (field_or_empty_stripped row idx_first) as Hfn. fold fn in Hfn.
  pose proof (field_or_empty_stripped row idx_last) as Hln. fold ln in Hln.
  destruct (Py.nonempty name); [done|].
  destruct (Py.nonempty fn) eqn:Ef; [|done].
  destruct (Py.nonempty ln) eqn:El; [|done].
  apply strip_join; [done..| |]; by apply nonempty_true.
Qed.

(** ** Domains *)

Lemma count_app (c : ascii) (a b : string) :
  Py.count c (a +:+ b) = Py.count c a + Py.count c b.
Proof.
  induction a as [|d a IH]; [done|].
  rewrite string_app_cons. simpl. rewrite IH. lia.
Qed.

Lemma no_gt_snoc (u : string) : no_gt (u +:+ ">") = false.
Proof.
  induction u as [|c u IH]; [done|].
  rewrite string_app_cons. simpl. by rewrite IH, andb_false_r.
Qed.

Lemma suffix_of_gt (a u w : string) :
  u +:+ ">" = a +:+ String "@" w → no_gt w = false.
Proof.
  revert u. induction a as [|c a IH]; intros u.
  - destruct u as [|d u]; [done|]. rewrite string_app_cons.
    intros [= _ <-]. apply no_gt_snoc.
  - destruct u as [|d u].
    + rewrite string_app_cons. intros [= _ H]. by destruct a.
    + rewrite !string_app_cons. intros [= _ H]. by apply (IH u).
Qed.

(** X7.  The domain of an email is empty when the email has no ['@'], and
    also when it ends with ['>'], as in [Ann <a@x.com>]: such emails never
    match a preferred domain. *)
Theorem email_domain_empty_cases (email : string) :
  (Py.count "@" email = 0 → email_domain email = EmptyString)
  ∧ (∀ u, email = u +:+ ">" → email_domain email = EmptyString)
  ∧ (∀ args, email_domain email = EmptyString → prefer_hit args (email_domain email) = 1).
Proof.
  split; [|split].
  - intros Hc. unfold email_domain. rewrite search_domain_none; [done|].
    intros u w ->. rewrite count_app in Hc. simpl in Hc. lia.
  - intros u ->. unfold email_domain. rewrite search_domain_none; [done|].
    intros a w Heq. right. by eapply suffix_of_gt.
  - intros args ->. unfold prefer_hit. destruct (prefer_domain args) as [d|]; [|done].
    destruct d as [|c d]; [done|]. done.
Qed.

Lemma email_domain_empty_cases_witness :
  email_domain "Ann <a@x.com>" = EmptyString
  ∧ prefer_hit prefer_args (email_domain "Ann <a@x.com>") = 1.
Proof.
  destruct (email_domain_empty_cases "Ann <a@x.com>") as (_ & Hgt & Hmiss).
  split; [by apply (Hgt "Ann <a@x.com")|].
  apply Hmiss. by apply (Hgt "Ann <a@x.com").
Defined.

Lemma lower_char_gt (c : ascii) :
  Ascii.eqb (Py.lower_char c) ">" = Ascii.eqb c ">".
Proof. destruct c as [[] [] [] [] [] [] [] []]; reflexivity. Qed.

Lemma no_gt_lower (s : string) : no_gt (Py.lower s) = no_gt s.
Proof. induction s as [|c s IH]; simpl; [done|]. by rewrite lower_char_gt, IH. Qed.

Lemma search_domain_Some (email w : string) :
  search_domain email = Some w →
  ∃ u, email = u +:+ String "@" w ∧ w ≠ EmptyString ∧ no_gt w = true.
Proof.
  induction email as [|c rest IH]; simpl; [done|].
  destruct (Ascii.eqb_spec c "@") as [->|Hc]; simpl.
  - destruct (Py.nonempty rest) eqn:En; simpl.
    + destruct (no_gt rest) eqn:Eg.
      * intros [= <-]. exists EmptyString. by apply nonempty_true in En.
      * intros (u & -> & ?)%IH. by exists (String "@" u).
    + intros (u & -> & ?)%IH. by exists (String "@" u).
  - intros (u & -> & ?)%IH. by exists (String c u).
Qed.

(** X8.  The domain of an email is either empty or the lower-cased text
    behind one of its ['@'], a non-empty text without ['>']; it is always
    in lower case already and never holds a ['>']. *)
Theorem email_domain_shape (email : string) :
  (email_domain email = EmptyString
   ∨ ∃ u w, email = u +:+ String "@" w ∧ w ≠ EmptyString ∧ no_gt w = true
            ∧ email_domain email = Py.lower w)
  ∧ Py.lower (email_domain email) = email_domain email
  ∧ no_gt (email_domain email) = true.
Proof.
  unfold email_domain. destruct (search_domain email) as [w|] eqn:E.
  - apply search_domain_Some in E as (u & -> & Hw & Hgt).
    split; [right; by exists u, w|]. split; [apply lower_idem|].
    by rewrite no_gt_lower.
  - split; [by left|]. done.
Qed.

(** ** The working list: numbering and order *)

Lemma numbered_NoDup (items : list item) : numbered items → NoDup items.
Proof.
  intros Hn. apply NoDup_alt. intros i j x Hi Hj.
  by rewrite <- (Hn i x Hi), <- (Hn j x Hj).
Qed.

Lemma scanned_numbered (args : Args) (header : list string) (rows : list (list string)) :
  numbered (scanned args header rows).
Proof.
  apply scan_rows_numbered. intros i m H. cbn [fst] in H. by destruct i.
Qed.

(** The scanned entries come from the rows, in the order of the rows. *)
Lemma scan_rows_in_order (args : Args) (cols : Columns) (rows : list (list string))
    (acc : list item * gset string) :
  ∃ rs its,
    (scan_rows args cols rows acc).1 = acc.1 ++ its
    ∧ rs `sublist_of` rows
    ∧ Forall2 (λ row it, ∃ seq, entry args cols row seq = Some it) rs its.
Proof.
  revert acc. induction rows as [|row rows IH]; intros acc.
  - exists [], []. by rewrite app_nil_r.
  - unfold scan_rows in *. cbn [foldl].
    destruct (IH (scan_row args cols row acc)) as (rs & its & Heq & Hsub & Hall).
    rewrite Heq. unfold scan_row, scan_email. cbn [fst].
    destruct (entry args cols row (length acc.1)) as [it|] eqn:E.
    + exists (row :: rs), (it :: its). rewrite <- app_assoc. split; [done|].
      split; [by apply sublist_skip|]. constructor; [by eexists|done].
    + exists rs, its. split; [done|]. split; [by apply sublist_cons|done].
Qed.

(** Two entries of the working list at different positions have different
    keys, and the one in front has the smaller key. *)
Lemma ranked_strict (args : Args) (header : list string) (rows : list (list string))
    (i j : nat) (m n : item) :
  ranked args header rows !! i = Some m → ranked args header rows !! j = Some n →
  i < j → key_ltb m.1 n.1 = true.
Proof.
  intros Hi Hj Hlt.
  pose proof (sorted_lookup_le _ i j m n (sort_items_sorted _) Hi Hj Hlt) as Hle.
  pose proof (scanned_numbered args header rows) as Hnum.
  assert (NoDup (ranked args header rows)) as Hnd.
  { unfold ranked. rewrite sort_items_perm. by apply numbered_NoDup. }
  assert (m ≠ n) as Hne.
  { intros ->. pose proof (NoDup_lookup _ i j n Hnd Hi Hj). lia. }
  assert (m ∈ scanned args header rows) as [p Hp]%list_elem_of_lookup.
  { unfold scanned. rewrite <- (sort_items_perm _). by eapply list_elem_of_lookup_2. }
  assert (n ∈ scanned args header rows) as [q Hq]%list_elem_of_lookup.
  { unfold scanned. rewrite <- (sort_items_perm _). by eapply list_elem_of_lookup_2. }
  pose proof (Hnum p m Hp) as Hsm. pose proof (Hnum q n Hq) as Hsn.
  destruct (key_ltb m.1 n.1) eqn:E; [done|]. exfalso.
  assert (p = q) as -> by (unfold seq_of in *; key_lia).
  congruence.
Qed.

(** X9.  The sorted working list holds exactly the scanned entries, and
    it is strictly ascending by rank key: of two entries, the one in front
    has the smaller preferred-domain flag, or the same flag and the smaller
    name flag, or the same flags and the smaller sequence number.  No two
    entries tie. *)
Theorem working_list_strictly_ascending (args : Args) (header : list string)
    (rows : list (list string)) :
  ranked args header rows ≡ₚ scanned args header rows
  ∧ ∀ i j m n,
      ranked args header rows !! i = Some m → ranked args header rows !! j = Some n →
      i < j →
      miss_of m < miss_of n
      ∨ (miss_of m = miss_of n
         ∧ (noname_of m < noname_of n
            ∨ (noname_of m = noname_of n ∧ seq_of m < seq_of n))).
Proof.
  split; [apply sort_items_perm|].
  intros i j m n Hi Hj Hlt.
  pose proof (ranked_strict _ _ _ _ _ _ _ Hi Hj Hlt) as H.
  apply key_ltb_true in H. exact H.
Qed.

(** X10.  The scanned entries are numbered 0, 1, 2, ... by their sequence
    number, and they stem, in this order, from rows of the file in the
    order of the file: the sequence number is the first-seen order. *)
Theorem entries_numbered_in_file_order (args : Args) (header : list string)
    (rows : list (list string)) :
  (∀ k m, scanned args header rows !! k = Some m → seq_of m = k)
  ∧ ∃ rs, rs `sublist_of` rows
      ∧ Forall2 (λ row it, ∃ seq, entry args (resolve args header) row seq = Some it)
          rs (scanned args header rows).
Proof.
  split; [apply scanned_numbered|].
  destruct (scan_rows_in_order args (resolve args header) rows ([], ∅))
    as (rs & its & Heq & Hsub & Hall).
  exists rs. split; [done|]. unfold scanned. by rewrite Heq.
Qed.

(** ** The excerpt: where its lines come from *)

Lemma entry_display (args : Args) (cols : Columns) (row : list string) (seq : nat)
    (m : item) :
  entry args cols row seq = Some m →
  ∃ i v, idx_email cols = Some i ∧ row !! i = Some v
         ∧ normalize v ≠ EmptyString
         ∧ display_of m
           = display (build_name row (idx_name cols) (idx_first cols) (idx_last cols))
               (normalize v)
         ∧ noname_of m
           = (if Py.nonempty (build_name row (idx_name cols) (idx_first cols)
                                (idx_last cols)) then 0 else 1).
Proof.
  unfold entry. destruct (idx_email cols) as [i|]; [|done].
  destruct (row !! i) as [v|] eqn:Hv; [|done].
  destruct (Py.nonempty (normalize v)) eqn:En; [|done]. simpl.
  intros [= <-]. exists i, v. apply nonempty_true in En. done.
Qed.

(** X11.  Every line of the excerpt is the display string of a data row
    that has a non-empty trimmed email at the email column: the email
    alone when the row yields no name, and [name <email>] otherwise. *)
Theorem excerpt_lines_from_rows (sniff : string → list ascii → option Dialect)
    (args : Args) (fh : CsvFile) (json_ok : bool) (header : list string)
    (rows : list (list string)) (r : Report) (x : string) :
  reader fh (select_dialect sniff args fh) = Some (of_rows (header :: rows)) →
  main sniff args (Some fh) json_ok = Returned r →
  x ∈ excerpt (summary r) →
  ∃ row i v,
    row ∈ rows ∧ idx_email (resolve args header) = Some i ∧ row !! i = Some v
    ∧ normalize v ≠ EmptyString
    ∧ x = display
            (build_name row (idx_name (resolve args header))
               (idx_first (resolve args header)) (idx_last (resolve args header)))
            (normalize v).
Proof.
  intros Hr Hmain Hx. rewrite (main_of_rows _ _ _ _ _ _ Hr) in Hmain.
  cbv zeta in Hmain. injection Hmain as <-. cbn [summary summary_of excerpt] in Hx.
  apply list_elem_of_fmap in Hx as (m & -> & Hm).
  apply (sublist_subseteq _ _ (kept_sublist _ _ _ _)) in Hm.
  apply ranked_elem in Hm as (row & seq & Hrow & He).
  destruct (entry_display _ _ _ _ _ He) as (i & v & Hi & Hv & Hne & Hd & _).
  by exists row, i, v.
Qed.

Lemma excerpt_lines_from_rows_witness :
  ∃ row i v,
    row ∈ example_rows ∧ idx_email (resolve default_args example_header) = Some i
    ∧ row !! i = Some v ∧ normalize v ≠ EmptyString
    ∧ "Ann Lee <a@x.com>"
      = display
          (build_name row (idx_name (resolve default_args example_header))
             (idx_first (resolve default_args example_header))
             (idx_last (resolve default_args example_header)))
          (normalize v).
Proof.
  apply (excerpt_lines_from_rows no_sniff default_args (plain_file example_text) true
           example_header example_rows example_report "Ann Lee <a@x.com>").
  - vm_compute. reflexivity.
  - vm_compute. reflexivity.
  - apply list_elem_of_here.
Defined.

(** ** The excerpt: its exact length and what the limit cuts *)

Lemma displays_seen (x : string) (D seen : gset string) :
  x ∈ seen → ({[x]} ∪ D) ∖ seen = D ∖ seen.
Proof. set_solver. Qed.

Lemma displays_fresh (x : string) (D seen : gset string) :
  x ∉ seen → size (({[x]} ∪ D) ∖ seen) = S (size (D ∖ ({[x]} ∪ seen))).
Proof.
  intros Hx.
  assert (({[x]} ∪ D) ∖ seen = {[x]} ∪ (D ∖ ({[x]} ∪ seen))) as ->.
  { apply set_eq. intros y.
    rewrite !elem_of_difference, !elem_of_union, elem_of_difference, not_elem_of_union,
      !elem_of_singleton.
    destruct (decide (y = x)) as [->|]; naive_solver. }
  rewrite size_union, size_singleton; [done|].
  intros y. rewrite elem_of_singleton, elem_of_difference, not_elem_of_union,
    elem_of_singleton. naive_solver.
Qed.

Lemma kept_length_exact (lim : Z) (items : list item) (seen : gset string) (n : nat) :
  length (kept lim items seen n)
  = Nat.min (size (list_to_set (display_of <$> items) ∖ seen : gset string))
      (Nat.max 1 (Z.to_nat lim - n)).
Proof.
  revert seen n. induction items as [|it rest IH]; intros seen n.
  - cbn [kept fmap list_fmap list_to_set length].
    assert ((∅ : gset string) ∖ seen = ∅) as -> by set_solver.
    by rewrite size_empty.
  - cbn [kept]. rewrite fmap_cons. cbn [list_to_set].
    change (it.2) with (display_of it).
    case_bool_decide as Hin.
    + rewrite IH. by rewrite displays_seen.
    + rewrite displays_fresh by done. cbn [length].
      destruct (Z.leb_spec lim (Z.of_nat (S n))) as [Hle|Hgt]; cbn [length]; [lia|].
      rewrite IH. lia.
Qed.

Lemma kept_complete (lim : Z) (items : list item) (seen : gset string) (n : nat)
    (m : item) :
  (Z.of_nat (n + length (kept lim items seen n)) < lim)%Z →
  m ∈ items →
  display_of m ∈ seen ∨ display_of m ∈ display_of <$> kept lim items seen n.
Proof.
  revert seen n. induction items as [|it rest IH]; intros seen n Hlen Hm.
  - by apply elem_of_nil in Hm.
  - cbn [kept] in *. change (it.2) with (display_of it) in *.
    apply elem_of_cons in Hm as [->|Hm].
    + case_bool_decide; [by left|]. right. rewrite fmap_cons. apply list_elem_of_here.
    + case_bool_decide as Hin; [by apply IH|].
      cbn [length] in Hlen.
      destruct (Z.leb_spec lim (Z.of_nat (S n))) as [Hle|Hgt]; [cbn [length] in Hlen; lia|].
      destruct (IH ({[display_of it]} ∪ seen) (S n)) as [Hs|Hk]; [lia|done| |].
      * apply elem_of_union in Hs as [->%elem_of_singleton|Hs]; [|by left].
        right. rewrite fmap_cons. apply list_elem_of_here.
      * right. rewrite fmap_cons. by apply list_elem_of_further.
Qed.

Lemma kept_limit_prefix (lim lim' : Z) (items : list item) (seen : gset string) (n : nat) :
  (lim ≤ lim')%Z → kept lim items seen n `prefix_of` kept lim' items seen n.
Proof.
  intros Hle. revert seen n. induction items as [|it rest IH]; intros seen n; [done|].
  cbn [kept]. case_bool_decide; [apply IH|]. apply prefix_cons.
  destruct (Z.leb_spec lim (Z.of_nat (S n))); [apply prefix_nil|].
  destruct (Z.leb_spec lim' (Z.of_nat (S n))); [lia|apply IH].
Qed.

(** X12.  The excerpt has as many lines as there are distinct display
    strings among the entries, unless the limit cuts it: its length is the
    smaller of that number and the limit, a limit below 1 counting as 1. *)
Theorem excerpt_length_exact (sniff : string → list ascii → option Dialect)
    (args : Args) (fh : CsvFile) (json_ok : bool) (header : list string)
    (rows : list (list string)) (r : Report) :
  reader fh (select_dialect sniff args fh) = Some (of_rows (header :: rows)) →
  main sniff args (Some fh) json_ok = Returned r →
  length (excerpt (summary r))
  = Nat.min (size (list_to_set (display_of <$> scanned args header rows) : gset string))
      (Nat.max 1 (Z.to_nat (limit args))).
Proof.
  intros Hr Hmain. rewrite (main_of_rows _ _ _ _ _ _ Hr) in Hmain.
  cbv zeta in Hmain. injection Hmain as <-. cbn [summary summary_of excerpt].
  rewrite length_fmap, kept_length_exact, Nat.sub_0_r.
  assert (list_to_set (display_of <$> ranked args header rows) ∖ ∅
          = (list_to_set (display_of <$> scanned args header rows) : gset string)) as ->;
    [|done].
  rewrite difference_empty_L. apply list_to_set_perm_L.
  apply fmap_Permutation, sort_items_perm.
Qed.

Lemma excerpt_length_exact_witness :
  length (excerpt (summary example_report))
  = Nat.min
      (size (list_to_set (display_of <$> scanned default_args example_header example_rows)
             : gset string))
      (Nat.max 1 (Z.to_nat (limit default_args))).
Proof.
  apply (excerpt_length_exact no_sniff default_args (plain_file example_text) true
           example_header example_rows example_report); vm_compute; reflexivity.
Defined.

(** X13.  When the excerpt is shorter than the limit, nothing was cut: the
    display string of every entry is a line of the excerpt. *)
Theorem excerpt_complete_below_limit (sniff : string → list ascii → option Dialect)
    (args : Args) (fh : CsvFile) (json_ok : bool) (header : list string)
    (rows : list (list string)) (r : Report) (m : item) :
  reader fh (select_dialect sniff args fh) = Some (of_rows (header :: rows)) →
  main sniff args (Some fh) json_ok = Returned r →
  (Z.of_nat (length (excerpt (summary r))) < limit args)%Z →
  m ∈ scanned args header rows →
  display_of m ∈ excerpt (summary r).
Proof.
  intros Hr Hmain Hlen Hm. rewrite (main_of_rows _ _ _ _ _ _ Hr) in Hmain.
  cbv zeta in Hmain. injection Hmain as <-. cbn [summary summary_of excerpt] in *.
  rewrite length_fmap in Hlen.
  destruct (kept_complete (limit args) (ranked args header rows) ∅ 0 m) as [H|H];
    [done| |set_solver|done].
  unfold ranked. rewrite sort_items_perm. exact Hm.
Qed.

Lemma excerpt_complete_below_limit_witness :
  display_of ((1, 0, 2), "Ann Lee <a@x.com>") ∈ excerpt (summary example_report).
Proof.
  apply (excerpt_complete_below_limit no_sniff default_args (plain_file example_text) true
           example_header example_rows example_report ((1, 0, 2), "Ann Lee <a@x.com>")).
  - vm_compute. reflexivity.
  - vm_compute. reflexivity.
  - vm_compute. reflexivity.
  - vm_compute. apply list_elem_of_further, list_elem_of_further, list_elem_of_here.
Defined.

(** X14.  Raising the limit only appends lines: the excerpt for a limit is
    a prefix of the excerpt of the same file for any larger limit. *)
Theorem excerpt_limit_prefix (sniff : string → list ascii → option Dialect)
    (args : Args) (fh : CsvFile) (json_ok json_ok' : bool) (rws : list (list string))
    (lim' : Z) (r r' : Report) :
  reader fh (select_dialect sniff args fh) = Some (of_rows rws) →
  main sniff args (Some fh) json_ok = Returned r →
  main sniff (with_limit lim' args) (Some fh) json_ok' = Returned r' →
  (limit args ≤ lim')%Z →
  excerpt (summary r) `prefix_of` excerpt (summary r').
Proof.
  intros Hr Hmain Hmain' Hle.
  apply main_returned in Hmain as (fh1 & rws1 & [= <-] & Hr1 & ->).
  apply main_returned in Hmain' as (fh2 & rws2 & [= <-] & Hr2 & ->).
  change (select_dialect sniff (with_limit lim' args) fh)
    with (select_dialect sniff args fh) in Hr2.
  rewrite Hr in Hr1, Hr2. injection Hr1 as <-%of_rows_inj. injection Hr2 as <-%of_rows_inj.
  destruct rws as [|header rows]; [done|]. cbn [summary_of excerpt].
  change (ranked (with_limit lim' args) header rows) with (ranked args header rows).
  change (limit (with_limit lim' args)) with lim'.
  destruct (kept_limit_prefix (limit args) lim' (ranked args header rows) ∅ 0 Hle)
    as [k ->].
  rewrite fmap_app. by eexists.
Qed.

Lemma excerpt_limit_prefix_witness :
  ["Ann Lee <a@x.com>"] `prefix_of` excerpt (summary example_report).
Proof.
  apply (excerpt_limit_prefix no_sniff (with_limit 1 default_args)
           (plain_file example_text) true true (example_header :: example_rows) 10
           {| summary := {| excerpt := ["Ann Lee <a@x.com>"]; breached_databases := 3 |};
              stdout := ["Excerpt (name <email>)"; "Ann Lee <a@x.com>"; EmptyString;
                         "Breached Databases: 3"];
              json_written := None |}
           example_report); vm_compute; try reflexivity.
  discriminate.
Defined.

(** ** Missing columns and empty files *)

Lemma scan_rows_no_email (args : Args) (cols : Columns) (rows : list (list string))
    (acc : list item * gset string) :
  idx_email cols = None → (scan_rows args cols rows acc).1 = acc.1.
Proof.
  intros He. revert acc. induction rows as [|row rows IH]; intros acc; [done|].
  unfold scan_rows in *. cbn [foldl]. rewrite IH.
  unfold scan_row, scan_email, entry. by rewrite He.
Qed.

(** X15.  When no email column is resolved, the run still returns: the
    excerpt is empty, the report shows the line [(no email column found)]
    in its place, and the breach count is reported as for any file. *)
Theorem no_email_column_report (sniff : string → list ascii → option Dialect)
    (args : Args) (fh : CsvFile) (json_ok : bool) (header : list string)
    (rows : list (list string)) :
  reader fh (select_dialect sniff args fh) = Some (of_rows (header :: rows)) →
  idx_email (resolve args header) = None →
  ∃ r, main sniff args (Some fh) json_ok = Returned r
       ∧ excerpt (summary r) = []
       ∧ breached_databases (summary r)
         = size (list_to_set (breach_values (idx_breach (resolve args header)) rows)
                 : gset string)
       ∧ stdout r = ["Excerpt (name <email>)"; "(no email column found)"; EmptyString;
                     "Breached Databases: " +:+ pretty (breached_databases (summary r))].
Proof.
  intros Hr He. rewrite (main_of_rows _ _ _ _ _ _ Hr). eexists. split; [reflexivity|].
  cbn [summary stdout].
  assert (excerpt (summary_of args (header :: rows)) = []) as Hex.
  { cbn [summary_of excerpt]. unfold ranked. by rewrite scan_rows_no_email. }
  split; [done|]. split.
  - apply (summary_of_breaches args (header :: rows)).
  - unfold render. by rewrite Hex, He.
Qed.

Lemma no_email_column_report_witness :
  ∃ r, main no_sniff default_args (Some (plain_file no_email_text)) true = Returned r
       ∧ excerpt (summary r) = []
       ∧ breached_databases (summary r)
         = size (list_to_set
                   (breach_values (idx_breach (resolve default_args ["user"; "source"]))
                      no_email_rows) : gset string)
       ∧ stdout r = ["Excerpt (name <email>)"; "(no email column found)"; EmptyString;
                     "Breached Databases: " +:+ pretty (breached_databases (summary r))].
Proof.
  apply (no_email_column_report no_sniff default_args (plain_file no_email_text) true
           ["user"; "source"] no_email_rows); vm_compute; reflexivity.
Defined.

(** X16.  A file that has a header and no data row gives an empty excerpt
    and the breach count 0; the line shown in place of the excerpt tells
    whether the header has an email column. *)
Theorem header_only_report (sniff : string → list ascii → option Dialect)
    (args : Args) (fh : CsvFile) (json_ok : bool) (header : list string) :
  reader fh (select_dialect sniff args fh) = Some (of_rows [header]) →
  ∃ r, main sniff args (Some fh) json_ok = Returned r
       ∧ summary r = {| excerpt := []; breached_databases := 0 |}
       ∧ stdout r
         = ["Excerpt (name <email>)";
            match idx_email (resolve args header) with
            | None => "(no email column found)"
            | Some _ => "(no rows with emails found)"
            end;
            EmptyString; "Breached Databases: 0"].
Proof.
  intros Hr. rewrite (main_of_rows _ _ _ _ _ _ Hr). eexists. split; [reflexivity|].
  cbn [summary stdout]. split; [reflexivity|].
  unfold render. cbn [summary_of excerpt breached_databases].
  change (kept (limit args) (ranked args header []) ∅ 0) with (@nil item).
  cbn [fmap list_fmap]. by destruct (idx_email (resolve args header)).
Qed.

Lemma header_only_report_witness :
  ∃ r, main no_sniff default_args (Some (plain_file ("name,mail" +:+ NL))) true
       = Returned r
       ∧ summary r = {| excerpt := []; breached_databases := 0 |}
       ∧ stdout r
         = ["Excerpt (name <email>)";
            match idx_email (resolve default_args ["name"; "mail"]) with
            | None => "(no email column found)"
            | Some _ => "(no rows with emails found)"
            end;
            EmptyString; "Breached Databases: 0"].
Proof.
  apply (header_only_report no_sniff default_args (plain_file ("name,mail" +:+ NL)) true
           ["name"; "mail"]).
  vm_compute. reflexivity.
Defined.

(** ** Failures *)

Lemma scan_rows_then_error (args : Args) (cols : Columns) (rows : list (list string))
    (msg : string) (acc : list item * gset string) :
  scan args cols (rows_then_error rows msg) acc = None.
Proof. revert acc. induction rows as [|row rows IH]; intros acc; simpl; [done|apply IH]. Qed.

(** X17.  A [csv.Error] raised behind the header is not caught: however
    many rows were read before it, the exception leaves [main] and no line
    of the report is printed. *)
Theorem error_behind_header_uncaught (sniff : string → list ascii → option Dialect)
    (args : Args) (fh : CsvFile) (json_ok : bool) (header : list string)
    (rows : list (list string)) (msg : string) :
  reader fh (select_dialect sniff args fh)
  = Some (Row header (rows_then_error rows msg)) →
  main sniff args (Some fh) json_ok = Uncaught [].
Proof. intros Hr. unfold main. by rewrite Hr, scan_rows_then_error. Qed.

Lemma error_behind_header_uncaught_witness :
  main no_sniff default_args (Some broken_file) true = Uncaught [].
Proof.
  apply (error_behind_header_uncaught no_sniff default_args broken_file true
           example_header (take 2 example_rows) "line contains NUL").
  reflexivity.
Defined.

(** ** The JSON file and the report *)

(** X19.  For a file with a header that is read to the end, neither the
    excerpt, nor the breach count, nor the printed report depends on
    whether the JSON file can be written; the JSON file, when it is asked
    for and can be written, holds the excerpt and the count of the report. *)
Theorem json_does_not_change_report (sniff : string → list ascii → option Dialect)
    (args : Args) (fh : CsvFile) (header : list string) (rows : list (list string)) :
  reader fh (select_dialect sniff args fh) = Some (of_rows (header :: rows)) →
  ∃ s out, ∀ json_ok,
    main sniff args (Some fh) json_ok
    = Returned {| summary := s; stdout := out;
                  json_written :=
                    if Py.truthy (json_file args) && json_ok then Some s else None |}.
Proof.
  intros Hr. eexists _, _. intros json_ok.
  rewrite (main_of_rows _ _ _ _ _ _ Hr). reflexivity.
Qed.

Lemma json_does_not_change_report_witness :
  ∃ s out, ∀ json_ok,
    main no_sniff sidecar_args (Some (plain_file example_text)) json_ok
    = Returned {| summary := s; stdout := out;
                  json_written :=
                    if Py.truthy (json_file sidecar_args) && json_ok
                    then Some s else None |}.
Proof.
  apply (json_does_not_change_report no_sniff sidecar_args (plain_file example_text)
           example_header example_rows).
  vm_compute. reflexivity.
Defined.

(** X20.  The report of every run that returns shows what the run
    computed: the title, then the lines of the excerpt, or one placeholder
    line when the excerpt is empty, then an empty line and the breach
    count. *)
Theorem report_shows_summary (sniff : string → list ascii → option Dialect)
    (args : Args) (file : option CsvFile) (json_ok : bool) (r : Report) :
  main sniff args file json_ok = Returned r →
  ∃ body,
    stdout r
    = "Excerpt (name <email>)" :: body
      ++ [EmptyString; "Breached Databases: " +:+ pretty (breached_databases (summary r))]
    ∧ (excerpt (summary r) ≠ [] → body = excerpt (summary r))
    ∧ (excerpt (summary r) = [] → ∃ p, body = [p] ∧ p ∈ PLACEHOLDERS).
Proof.
  intros Hmain.
  destruct (main_returned _ _ _ _ _ Hmain) as (fh & rws & -> & Hr & Hs).
  destruct rws as [|header rows].
  - unfold main in Hmain. rewrite Hr in Hmain.
    assert (r.(stdout) = EMPTY_REPORT ∧ summary r = {| excerpt := []; breached_databases := 0 |})
      as [Hout ->].
    { cbn [of_rows foldr] in Hmain.
      destruct (Py.truthy (json_file args)), json_ok; simplify_eq; by split. }
    exists ["(empty file)"]. rewrite Hout. split; [reflexivity|].
    split; [intros H; by destruct H|].
    intros _. eexists. split; [done|]. apply list_elem_of_here.
  - clear Hs. rewrite (main_of_rows _ _ _ _ _ _ Hr) in Hmain. cbv zeta in Hmain.
    set (S := summary_of args (header :: rows)) in *. clearbody S.
    injection Hmain as <-. cbn [summary stdout]. unfold render.
    destruct (excerpt S) as [|x ex] eqn:Hex.
    + destruct (choose_col (header_lower header) "email" (email_col args)).
      * exists ["(no rows with emails found)"]. split; [done|].
        split; [intros H; by destruct H|].
        intros _. eexists. split; [done|]. by do 2 apply list_elem_of_further; left.
      * exists ["(no email column found)"]. split; [done|].
        split; [intros H; by destruct H|].
        intros _. eexists. split; [done|]. by apply list_elem_of_further; left.
    + exists (x :: ex). split; [done|]. split; [done|]. done.
Qed.

Lemma report_shows_summary_witness :
  ∃ body,
    stdout example_report
    = "Excerpt (name <email>)" :: body
      ++ [EmptyString;
          "Breached Databases: " +:+ pretty (breached_databases (summary example_report))]
    ∧ (excerpt (summary example_report) ≠ [] → body = excerpt (summary example_report))
    ∧ (excerpt (summary example_report) = [] → ∃ p, body = [p] ∧ p ∈ PLACEHOLDERS).
Proof.
  apply (report_shows_summary no_sniff default_args (Some (plain_file example_text)) true).
  vm_compute. reflexivity.
Defined.

(** ** The breach count: bounds *)

Lemma size_list_to_set_le (l : list string) :
  size (list_to_set l : gset string) ≤ length l.
Proof.
  induction l as [|x l IH]; cbn [list_to_set length].
  - by rewrite size_empty.
  - rewrite size_union_alt, size_singleton.
    assert (size ((list_to_set l : gset string) ∖ {[x]}) ≤ size (list_to_set l : gset string));
      [|lia].
    apply subseteq_size. intros y. rewrite elem_of_difference. naive_solver.
Qed.

Lemma breach_values_length (idx : option nat) (rows : list (list string)) :
  length (breach_values idx rows) ≤ length rows.
Proof.
  induction rows as [|row rows IH]; [by destruct idx|].
  rewrite breach_values_cons, length_app. cbn [length].
  assert (length (breach_values idx [row]) ≤ 1); [|lia].
  unfold breach_values. destruct idx as [i|]; [|simpl; lia]. simpl.
  destruct (row !! i); simpl; [|lia].
  rewrite filter_cons, filter_nil. case_decide; simpl; lia.
Qed.

(** X21.  The breach count never exceeds the number of data rows, and it
    is 0 when the header has no breach column. *)
Theorem breach_count_bounds (sniff : string → list ascii → option Dialect)
    (args : Args) (fh : CsvFile) (json_ok : bool) (header : list string)
    (rows : list (list string)) (r : Report) :
  reader fh (select_dialect sniff args fh) = Some (of_rows (header :: rows)) →
  main sniff args (Some fh) json_ok = Returned r →
  breached_databases (summary r) ≤ length rows
  ∧ (idx_breach (resolve args header) = None → breached_databases (summary r) = 0).
Proof.
  intros Hr Hmain.
  destruct (main_returns _ _ _ json_ok _ _ Hr) as (r' & Hmain' & Hs).
  rewrite Hmain in Hmain'. injection Hmain' as <-.
  rewrite Hs, summary_of_breaches. unfold breach_index.
  change (default [] (head (header :: rows))) with header.
  change (tail (header :: rows)) with rows.
  split.
  - etrans; [apply size_list_to_set_le|apply breach_values_length].
  - intros ->. cbn [breach_values list_to_set]. apply size_empty.
Qed.

Lemma breach_count_bounds_witness :
  breached_databases (summary breach_report) ≤ length (tail breach_rows)
  ∧ (idx_breach (resolve default_args ["source"; "when"]) = None →
     breached_databases (summary breach_report) = 0).
Proof.
  apply (breach_count_bounds no_sniff default_args (plain_file breach_text) true
           ["source"; "when"] (tail breach_rows) breach_report); vm_compute; reflexivity.
Defined.

(** ** What the entries depend on *)

Lemma entry_ext (args args' : Args) (cols cols' : Columns) (row : list string) (seq : nat) :
  prefer_domain args = prefer_domain args' →
  idx_email cols = idx_email cols' → idx_name cols = idx_name cols' →
  idx_first cols = idx_first cols' → idx_last cols = idx_last cols' →
  entry args cols row seq = entry args' cols' row seq.
Proof.
  intros Hp He Hn Hf Hl. unfold entry, prefer_hit. by rewrite Hp, He, Hn, Hf, Hl.
Qed.

Lemma scan_rows_items_ext (args args' : Args) (cols cols' : Columns)
    (rows : list (list string)) (acc acc' : list item * gset string) :
  prefer_domain args = prefer_domain args' →
  idx_email cols = idx_email cols' → idx_name cols = idx_name cols' →
  idx_first cols = idx_first cols' → idx_last cols = idx_last cols' →
  acc.1 = acc'.1 →
  (scan_rows args cols rows acc).1 = (scan_rows args' cols' rows acc').1.
Proof.
  intros Hp He Hn Hf Hl. revert acc acc'.
  induction rows as [|row rows IH]; intros acc acc' Hacc; [done|].
  unfold scan_rows in *. cbn [foldl]. apply IH.
  unfold scan_row, scan_email. cbn [fst].
  by rewrite Hacc, (entry_ext args args' cols cols' row _ Hp He Hn Hf Hl).
Qed.

(** X22.  The excerpt does not depend on the breach column: the same file
    read with another [--breach-col] gives the same excerpt. *)
Theorem excerpt_ignores_breach_column (sniff : string → list ascii → option Dialect)
    (args : Args) (fh : CsvFile) (json_ok json_ok' : bool) (rws : list (list string))
    (col : option string) (r r' : Report) :
  reader fh (select_dialect sniff args fh) = Some (of_rows rws) →
  main sniff args (Some fh) json_ok = Returned r →
  main sniff (with_breach_col col args) (Some fh) json_ok' = Returned r' →
  excerpt (summary r) = excerpt (summary r').
Proof.
  intros Hr Hmain Hmain'.
  apply main_returned in Hmain as (fh1 & rws1 & [= <-] & Hr1 & ->).
  apply main_returned in Hmain' as (fh2 & rws2 & [= <-] & Hr2 & ->).
  change (select_dialect sniff (with_breach_col col args) fh)
    with (select_dialect sniff args fh) in Hr2.
  rewrite Hr in Hr1, Hr2. injection Hr1 as <-%of_rows_inj. injection Hr2 as <-%of_rows_inj.
  destruct rws as [|header rows]; [done|]. cbn [summary_of excerpt].
  change (limit (with_breach_col col args)) with (limit args).
  unfold ranked.
  by rewrite (scan_rows_items_ext args (with_breach_col col args)
                (resolve args header) (resolve (with_breach_col col args) header)
                rows ([], ∅) ([], ∅)).
Qed.

Lemma excerpt_ignores_breach_column_witness :
  excerpt (summary example_report)
  = excerpt (summary
      {| summary := {| excerpt := ["Ann Lee <a@x.com>"; "b@x.com"];
                       breached_databases := 1 |};
         stdout := ["Excerpt (name <email>)"; "Ann Lee <a@x.com>"; "b@x.com"; EmptyString;
                    "Breached Databases: 1"];
         json_written := None |}).
Proof.
  apply (excerpt_ignores_breach_column no_sniff default_args (plain_file example_text)
           true true (example_header :: example_rows) (Some "last_name"));
    vm_compute; reflexivity.
Defined.

(** ** Letter case of domains *)

Lemma lower_char_at (c : ascii) :
  Ascii.eqb (Py.lower_char c) "@" = Ascii.eqb c "@".
Proof. destruct c as [[] [] [] [] [] [] [] []]; reflexivity. Qed.

Lemma search_domain_lower (email : string) :
  search_domain (Py.lower email) = Py.lower <$> search_domain email.
Proof.
  induction email as [|c rest IH]; simpl; [done|].
  rewrite lower_char_at, nonempty_lower, no_gt_lower, IH.
  by destruct (Ascii.eqb c "@" && Py.nonempty rest && no_gt rest).
Qed.

(** X23.  Letter case plays no part in matching the preferred domain: the
    domain of an email is that of the lower-cased email, and the flag is
    the same for a preferred domain and for its lower-cased form. *)
Theorem domain_match_ignores_case (args : Args) (email D : string) :
  email_domain (Py.lower email) = email_domain email
  ∧ prefer_hit (with_prefer_domain (Some (Py.lower D)) args) (email_domain email)
    = prefer_hit (with_prefer_domain (Some D) args) (email_domain email).
Proof.
  split.
  - unfold email_domain. rewrite search_domain_lower.
    destruct (search_domain email); simpl; [apply lower_idem|done].
  - unfold prefer_hit. cbn [prefer_domain with_prefer_domain].
    by rewrite nonempty_lower, lower_idem.
Qed.
